(** * linter: lint findings restricted to the lines changed by a diff

    A shallow embedding of [main.go] and the properties of its hunk-header
    parser ([findChangesByHunkHeader]), its change-set builder
    ([findChanges], [getChangesByFileName]) and the selection loop of
    [main].

    Conventions of the embedding:
    - a Go [string] is a [string] (a sequence of bytes);
    - Go's [int] and [int64] are [Z] with the 64-bit two's-complement
      wrap-around written out ([int64]); [int] is taken to be 64 bits wide,
      as on the platforms the tool is built for;
    - a Go function returning [(T, error)] returns [result T];
    - the collaborators reached through [os/exec], [os] and the printer are
      a [World] that answers each call; every call and every printed issue
      is recorded, in program order, in a trace of [Event]s. *)

From Stdlib Require Import ZArith Ascii String List Lia.
From stdpp Require Import base option list gmap strings.

Local Open Scope Z_scope.

(** ** Errors and results *)

(** The values of Go's [error] interface the program can see:
    [*strconv.NumError] with [Err] one of [strconv.ErrSyntax] and
    [strconv.ErrRange], and the errors of the collaborators. *)
Inductive error : Type :=
| ErrSyntax (fn num : string)
| ErrRange (fn num : string)
| ExternalError (msg : string).

Inductive result (A : Type) : Type :=
| Ok (a : A)
| Err (e : error).
Arguments Ok {A} a.
Arguments Err {A} e.

Definition is_Err {A} (r : result A) : Prop :=
  match r with Ok _ => False | Err _ => True end.

(** [if err != nil { return nil, err }] *)
Definition rbind {A B} (r : result A) (k : A -> result B) : result B :=
  match r with
  | Ok a => k a
  | Err e => Err e
  end.

Declare Scope result_scope.
Delimit Scope result_scope with result.
Notation "'try' x := e 'in' k" := (rbind e (fun x => k))
  (at level 10, x name, e at level 100, k at level 200) : result_scope.

(** ** Machine integers *)

(** Conversion to [int64]: the value modulo 2^64, read as two's complement. *)
Definition int64 (z : Z) : Z := (z + 2 ^ 63) mod 2 ^ 64 - 2 ^ 63.

(** Conversion to [uint64]. *)
Definition uint64 (z : Z) : Z := z mod 2 ^ 64.

Definition maxUint64 : Z := 2 ^ 64 - 1.
Definition maxInt64 : Z := 2 ^ 63 - 1.

(** Go's [int] on a 64-bit platform. *)
Definition int (z : Z) : Z := int64 z.

(** ** Bytes and digits *)

(** ['0' <= c && c <= '9'], also the class [\d] of Go's [regexp]
    (ASCII digits only). *)
Definition is_digit (c : ascii) : bool :=
  let n := N_of_ascii c in ((48 <=? n) && (n <=? 57))%N.

(** [c - '0'] *)
Definition digit_val (c : ascii) : Z := Z.of_N (N_of_ascii c) - 48.

(** The decimal value of a run of digits, most significant first. *)
Fixpoint decimal_acc (acc : Z) (s : string) : Z :=
  match s with
  | EmptyString => acc
  | String c s' => decimal_acc (acc * 10 + digit_val c) s'
  end.

Definition decimal (s : string) : Z := decimal_acc 0 s.

Fixpoint all_digits (s : string) : bool :=
  match s with
  | EmptyString => true
  | String c s' => is_digit c && all_digits s'
  end.

(** [s] is matched by [\d+]. *)
Definition digit_run (s : string) : Prop :=
  s <> EmptyString /\ all_digits s = true.

Definition digit_runb (s : string) : bool :=
  match s with
  | EmptyString => false
  | String _ _ => all_digits s
  end.

(** The byte [c] does not occur in [s]. *)
Fixpoint lacks (c : ascii) (s : string) : bool :=
  match s with
  | EmptyString => true
  | String c' s' => negb (Ascii.eqb c c') && lacks c s'
  end.

(** [s] does not begin with a byte satisfying [p]. *)
Definition not_starting (p : ascii -> bool) (s : string) : bool :=
  match s with
  | EmptyString => true
  | String c _ => negb (p c)
  end.

(** ** strconv.ParseUint and strconv.ParseInt, base 10, bitSize 64 *)

Module strconv.

(** The smallest number such that [cutoff * 10 > maxUint64]. *)
Definition cutoff : Z := maxUint64 / 10 + 1.

(** The digit loop of [ParseUint]; [s0] is the whole argument, kept for
    the error value; [n] is the [uint64] accumulator. A byte that is not
    a decimal digit is a syntax error (in base 10 a letter has a digit
    value of at least 10, an underscore is not accepted). *)
Fixpoint ParseUint_loop (s0 s : string) (n : Z) : result Z :=
  match s with
  | EmptyString => Ok n
  | String c s' =>
      if is_digit c then
        let d := digit_val c in
        if cutoff <=? n then Err (ErrRange "ParseUint" s0)
        else
          let n := uint64 (n * 10) in
          let n1 := uint64 (n + d) in
          if (n1 <? n) || (maxUint64 <? n1)
          then Err (ErrRange "ParseUint" s0)
          else ParseUint_loop s0 s' n1
      else Err (ErrSyntax "ParseUint" s0)
  end.

Definition ParseUint (s : string) : result Z :=
  match s with
  | EmptyString => Err (ErrSyntax "ParseUint" s)
  | _ => ParseUint_loop s s 0
  end.

(** [ParseInt(s, 10, 64)]: an optional sign, then [ParseUint]; a range
    error of [ParseUint] leaves [un = maxUint64], which the range check
    of [ParseInt] reports in its own name. *)
Definition ParseInt (s : string) : result Z :=
  match s with
  | EmptyString => Err (ErrSyntax "ParseInt" s)
  | String c s' =>
      let '(neg, body) :=
        if Ascii.eqb c "+" then (false, s')
        else if Ascii.eqb c "-" then (true, s')
        else (false, s) in
      match ParseUint body with
      | Err (ErrSyntax _ _) => Err (ErrSyntax "ParseInt" s)
      | r =>
          let un := match r with Ok n => n | Err _ => maxUint64 end in
          let cutoff := 2 ^ 63 in
          if negb neg && (cutoff <=? un) then Err (ErrRange "ParseInt" s)
          else if neg && (cutoff <? un) then Err (ErrRange "ParseInt" s)
          else
            let n := int64 un in
            Ok (if neg then int64 (- n) else n)
      end
  end.

End strconv.

(** ** regexp: [[+](\d+),(\d+)] and FindAllStringSubmatch

    The pattern is deterministic: a match can only begin at a ['+']; the
    greedy [\d+] that follows takes the longest run of digits, and no
    shorter run can be followed by the [','] the pattern wants next, since
    a shorter run is followed by a digit; the last [\d+] is greedy and ends
    the pattern, so it takes the longest run as well. *)
Module regexp.

(** The longest prefix of [s] made of digits, and what follows it. *)
Fixpoint digits_prefix (s : string) : string * string :=
  match s with
  | EmptyString => (EmptyString, EmptyString)
  | String c s' =>
      if is_digit c
      then let '(ds, r) := digits_prefix s' in (String c ds, r)
      else (EmptyString, s)
  end.

(** One submatch: [match[1]] and [match[2]] ([match[0]], the whole
    match, is not used by the program). *)
Definition submatch : Type := string * string.

(** The match of the pattern anchored at the first byte of [s], with the
    number of bytes it spans. *)
Definition match_here (s : string) : option (submatch * nat) :=
  match s with
  | String "+" s1 =>
      match digits_prefix s1 with
      | (String c1 g1 as m1, String "," s2) =>
          match digits_prefix s2 with
          | (String c2 g2 as m2, _) =>
              Some ((m1, m2),
                    (1 + String.length m1 + 1 + String.length m2)%nat)
          | _ => None
          end
      | _ => None
      end
  | _ => None
  end.

(** All successive non-overlapping matches, leftmost first: the search
    resumes at the byte after the previous match. [skip] counts the bytes
    of the previous match that are still to be passed over. *)
Fixpoint FindAll_from (skip : nat) (s : string) : list submatch :=
  match s with
  | EmptyString => []
  | String _ s' =>
      match skip with
      | S k => FindAll_from k s'
      | O =>
          match match_here s with
          | Some (m, len) => m :: FindAll_from (len - 1) s'
          | None => FindAll_from 0 s'
          end
      end
  end.

(** [regexp.MustCompile(`[+](\d+),(\d+)`).FindAllStringSubmatch(s, -1)] *)
Definition FindAllStringSubmatch (s : string) : list submatch :=
  FindAll_from 0 s.

End regexp.

(** ** findChangesByHunkHeader *)

(** The body of [for _, match := range matches]; [ranges] is the slice
    built so far. Each element [[]int{a, b}] is the pair [(a, b)]. *)
Fixpoint ranges_of_matches (matches : list regexp.submatch)
    (ranges : list (Z * Z)) : result (list (Z * Z)) :=
  match matches with
  | [] => Ok ranges
  | m :: matches' =>
      (try start := strconv.ParseInt (fst m) in
       try amount := strconv.ParseInt (snd m) in
       ranges_of_matches matches'
         (ranges ++ [(int start, int (int64 (start + amount)))]))%result
  end.

Definition findChangesByHunkHeader (hunkHeader : string)
    : result (list (Z * Z)) :=
  let matches := regexp.FindAllStringSubmatch hunkHeader in
  ranges_of_matches matches [].

(** ** Data model *)

Record Changes : Type := { Start : Z; End : Z }.

(** The field [Changes] of [FileChange] is [changes_of] here: the name
    [Changes] is taken by the type. *)
Record FileChange : Type := { changes_of : list Changes; Path : string }.

(** [token.Position] and the fields of [result.Issue] the program reads or
    passes on. *)
Record Position : Type :=
  { Filename : string; Offset : Z; Line : Z; Column : Z }.

Record Issue : Type :=
  { FromLinter : string; Text : string; Pos : Position }.

(** [func (i *Issue) FilePath() string { return i.Pos.Filename }] *)
Definition FilePath (issue : Issue) : string := Filename (Pos issue).

Global Instance Changes_eq_dec : EqDecision Changes.
Proof. solve_decision. Defined.
Global Instance FileChange_eq_dec : EqDecision FileChange.
Proof. solve_decision. Defined.
Global Instance Position_eq_dec : EqDecision Position.
Proof. solve_decision. Defined.
Global Instance Issue_eq_dec : EqDecision Issue.
Proof. solve_decision. Defined.

Record GolangCILint : Type :=
  { binPath : string; pwdPath : string; outputFormat : string;
    outputFile : string; checkingPath : string }.

Definition NewGolangCILint : GolangCILint :=
  {| binPath := "/home/shane/go/bin/golangci-lint"; pwdPath := ".";
     outputFormat := ""; outputFile := ""; checkingPath := "" |}.

Definition SetBin (g : GolangCILint) (path : string) : GolangCILint :=
  {| binPath := path; pwdPath := pwdPath g; outputFormat := outputFormat g;
     outputFile := outputFile g; checkingPath := checkingPath g |}.

Definition SetPwd (g : GolangCILint) (path : string) : GolangCILint :=
  {| binPath := binPath g; pwdPath := path; outputFormat := outputFormat g;
     outputFile := outputFile g; checkingPath := checkingPath g |}.

Definition SetOutputJSON (g : GolangCILint) (filename : string)
    : GolangCILint :=
  {| binPath := binPath g; pwdPath := pwdPath g;
     outputFormat := "json:" +:+ filename;
     outputFile := filename; checkingPath := checkingPath g |}.

Definition SetInspectDes (g : GolangCILint) (path : string) : GolangCILint :=
  {| binPath := binPath g; pwdPath := pwdPath g;
     outputFormat := outputFormat g;
     outputFile := outputFile g; checkingPath := path |}.

(** The command-line options, after [arg.MustParse]. *)
Record Args : Type :=
  { arg_Pwd : string; arg_Cmd : string; arg_JsonFile : string;
    arg_InspectDes : string }.

Definition default_args : Args :=
  {| arg_Pwd := "."; arg_Cmd := "git diff";
     arg_JsonFile := "/tmp/golang_ci_lint.json"; arg_InspectDes := "./..." |}.

(** ** The collaborators and the trace of the run *)

(** What the outside answers: [sh_run] is [exec.Command("sh", "-c", c).Run()],
    [sh_output] is [exec.Command("sh", "-c", c).Output()], [read_json] is
    opening, reading and decoding the JSON file of the lint runner. *)
Record World : Type :=
  { sh_run : string -> option error;
    sh_output : string -> result string;
    read_json : string -> result (list Issue) }.

Inductive Event : Type :=
| EvRun (command : string)
| EvOutput (command : string)
| EvReadJSON (file : string)
| EvPrint (issue : Issue).

(** A computation appends to the trace and either returns or stops with an
    error. *)
Definition M (A : Type) : Type := list Event -> list Event * result A.

Definition ret {A} (a : A) : M A := fun tr => (tr, Ok a).

Definition bind {A B} (m : M A) (k : A -> M B) : M B :=
  fun tr =>
    match m tr with
    | (tr', Ok a) => k a tr'
    | (tr', Err e) => (tr', Err e)
    end.

Definition emit (ev : Event) : M unit := fun tr => (tr ++ [ev], Ok tt).

Definition lift {A} (r : result A) : M A := fun tr => (tr, r).

Declare Scope prog_scope.
Delimit Scope prog_scope with prog.
Bind Scope prog_scope with M.
Notation "'let*' x := e 'in' k" := (bind e (fun x => k))
  (at level 10, x name, e at level 100, k at level 200) : prog_scope.

(** [for _, x := range xs { s = body(s, x) }], leaving the loop and the
    function at the first error. *)
Fixpoint foldM {A S} (body : S -> A -> M S) (xs : list A) (s : S) : M S :=
  match xs with
  | [] => ret s
  | x :: xs' => (let* s' := body s x in foldM body xs' s')%prog
  end.

(** [for _, x := range xs { body(x) }] *)
Fixpoint forM_ {A} (body : A -> M unit) (xs : list A) : M unit :=
  match xs with
  | [] => ret tt
  | x :: xs' => (let* _ := body x in forM_ body xs')%prog
  end.

(** The issues printed along a trace, in order. *)
Definition printed (tr : list Event) : list Issue :=
  omap (fun ev => match ev with EvPrint i => Some i | _ => None end) tr.

(** ** strings.Split and the second pattern *)

Definition newline : ascii := ascii_of_N 10.

(** [strings.Split(s, "\n")] *)
Fixpoint split_lines (s : string) : list string :=
  match s with
  | EmptyString => [EmptyString]
  | String c s' =>
      let ls := split_lines s' in
      if Ascii.eqb c newline then EmptyString :: ls
      else match ls with
           | l :: ls' => String c l :: ls'
           | [] => [String c EmptyString]
           end
  end.

Module hunk.

(** The class [[ \-+\d,]]. *)
Definition in_class (c : ascii) : bool :=
  Ascii.eqb c " " || Ascii.eqb c "-" || Ascii.eqb c "+" || is_digit c
  || Ascii.eqb c ",".

Fixpoint class_prefix (s : string) : string * string :=
  match s with
  | EmptyString => (EmptyString, EmptyString)
  | String c s' =>
      if in_class c
      then let '(run, r) := class_prefix s' in (String c run, r)
      else (EmptyString, s)
  end.

(** The match of [(@@[ \-+\d,]+@@)] anchored at the first byte of [s]:
    the class excludes ['@'], so the greedy run is the longest one. *)
Definition match_here (s : string) : option (string * nat) :=
  match s with
  | String "@" (String "@" s1) =>
      match class_prefix s1 with
      | (String c run as body, String "@" (String "@" _)) =>
          Some ("@@" +:+ body +:+ "@@", (String.length body + 4)%nat)
      | _ => None
      end
  | _ => None
  end.

Fixpoint FindAll_from (skip : nat) (s : string) : list string :=
  match s with
  | EmptyString => []
  | String _ s' =>
      match skip with
      | S k => FindAll_from k s'
      | O =>
          match match_here s with
          | Some (m, len) => m :: FindAll_from (len - 1) s'
          | None => FindAll_from 0 s'
          end
      end
  end.

(** [regexp.MustCompile(`(@@[ \-+\d,]+@@)`).FindAllString(s, -1)] *)
Definition FindAllString (s : string) : list string := FindAll_from 0 s.

End hunk.

(** ** The program *)

Section Program.

Variable w : World.

(** [GolangCILint.Execute]: the error of [Run] is the returned value. *)
Definition Execute (g : GolangCILint) : M (option error) :=
  let command :=
    "cd " +:+ pwdPath g +:+ "; " +:+ binPath g +:+ " run --out-format "
      +:+ outputFormat g +:+ " " +:+ checkingPath g in
  (let* _ := emit (EvRun command) in ret (sh_run w command))%prog.

Definition FindJSONIssues (g : GolangCILint) : M (list Issue) :=
  (let* _ := emit (EvReadJSON (outputFile g)) in
   lift (read_json w (outputFile g)))%prog.

(** The printer writes the issue to the standard output, which is taken to
    succeed. *)
Definition printIssue (issue : Issue) : M unit := emit (EvPrint issue).

(** The loop of [listChangedFiles], left at the first line that begins
    with ["commit "]. *)
Fixpoint collect_files (lines files : list string) : list string :=
  match lines with
  | [] => files
  | line :: lines' =>
      if String.prefix "commit " line then files
      else collect_files lines' (files ++ [line])
  end.

Definition listChangedFiles (pwd command : string) : M (list string) :=
  let c := " cd " +:+ pwd +:+ "; " +:+ command
             +:+ " --no-commit-id --name-only " in
  (let* _ := emit (EvOutput c) in
   let* output := lift (sh_output w c) in
   let lines := split_lines output in
   ret (collect_files lines []))%prog.

Definition findHunkHeadersOfFile (pwd cmd file : string)
    : M (list string) :=
  let c := "cd " +:+ pwd +:+ "; " +:+ cmd +:+ " -- " +:+ file in
  (let* _ := emit (EvOutput c) in
   let* output := lift (sh_output w c) in
   ret (hunk.FindAllString output))%prog.

(** The innermost loop of [findChanges]. *)
Definition append_positions (changes : list Changes)
    (changesPositions : list (Z * Z)) : list Changes :=
  fold_left
    (fun changes changesPosition =>
       changes ++ [{| Start := fst changesPosition;
                      End := snd changesPosition |}])
    changesPositions changes.

(** The body of [for _, hunkHeader := range hunkHeaders]. *)
Definition add_hunk (changes : list Changes) (hunkHeader : string)
    : M (list Changes) :=
  (let* changesPositions := lift (findChangesByHunkHeader hunkHeader) in
   ret (append_positions changes changesPositions))%prog.

(** The body of [for _, file := range files]. *)
Definition add_file (pwd cmd : string) (fileChanges : list FileChange)
    (file : string) : M (list FileChange) :=
  (let* hunkHeaders := findHunkHeadersOfFile pwd cmd file in
   let* changes := foldM add_hunk hunkHeaders [] in
   if (length changes =? 0)%nat then ret fileChanges
   else ret (fileChanges ++ [{| changes_of := changes; Path := file |}])
  )%prog.

Definition findChanges (pwd cmd : string) : M (list FileChange) :=
  (let* files := listChangedFiles pwd cmd in
   foldM (add_file pwd cmd) files [])%prog.

Definition getChangesByFileName (changes : list FileChange)
    : gmap string FileChange :=
  fold_left (fun changesByFileName change =>
               <[Path change := change]> changesByFileName)
    changes ∅.

(** [change.Start <= issue.Pos.Line && issue.Pos.Line <= change.End] *)
Definition covers (issue : Issue) (change : Changes) : bool :=
  (Start change <=? Line (Pos issue)) && (Line (Pos issue) <=? End change).

(** The loop of [main] over [issues.Issues]. *)
Definition select_loop (issues : list Issue)
    (changesByFileName : gmap string FileChange) : M unit :=
  forM_
    (fun issue =>
       match changesByFileName !! FilePath issue with
       | None => ret tt
       | Some changes =>
           forM_
             (fun change =>
                if covers issue change then printIssue issue else ret tt)
             (changes_of changes)
       end)
    issues.

(** [main]; stopping with [Err e] is [log.Panicln(e)]. *)
Definition main (args : Args) : M unit :=
  let pwd := arg_Pwd args in
  let cmd := arg_Cmd args in
  let jsonFile := arg_JsonFile args in
  let inspectDes := arg_InspectDes args in
  let lint :=
    SetInspectDes (SetOutputJSON (SetPwd NewGolangCILint pwd) jsonFile)
      inspectDes in
  (let* _ := Execute lint in
   let* issues := FindJSONIssues lint in
   let* changes := findChanges pwd cmd in
   let changesByFileName := getChangesByFileName changes in
   select_loop issues changesByFileName)%prog.

End Program.

(** ** What the selection loop prints *)

(** The findings the loop of [main] emits, in the order it emits them. *)
Definition selected (issues : list Issue)
    (changesByFileName : gmap string FileChange) : list Issue :=
  printed (fst (select_loop issues changesByFileName [])).

(** The ranges of the finding's file that contain its line. *)
Definition matching (issue : Issue)
    (changesByFileName : gmap string FileChange) : list Changes :=
  match changesByFileName !! FilePath issue with
  | None => []
  | Some changes => List.filter (covers issue) (changes_of changes)
  end.

Definition hits (issue : Issue)
    (changesByFileName : gmap string FileChange) : nat :=
  length (matching issue changesByFileName).

(** ** Derived notions used by the statements *)

(** One turn of the loop of [findChangesByHunkHeader], without the append. *)
Definition range_of_match (m : regexp.submatch) : result (Z * Z) :=
  (try start := strconv.ParseInt (fst m) in
   try amount := strconv.ParseInt (snd m) in
   Ok (int start, int (int64 (start + amount))))%result.

(** The header [@@ -a,b +c,d @@]. *)
Definition hunk_header (a b c d : string) : string :=
  "@@ -" +:+ a +:+ "," +:+ b +:+ " +" +:+ c +:+ "," +:+ d +:+ " @@".

Definition mk_changes (p : Z * Z) : Changes :=
  {| Start := fst p; End := snd p |}.

(** The change set of one file as the specification words it: the ranges
    of its hunk headers, in header order, then in match order. *)
Definition file_change_set (headers : string -> list string)
    (ranges : string -> list (Z * Z)) (file : string) : FileChange :=
  {| changes_of := map mk_changes (flat_map ranges (headers file));
     Path := file |}.

(** The change sets of a list of files as the specification words them:
    one per file, in the order of the list, the files without any range
    dropped. *)
Definition change_sets (headers : string -> list string)
    (ranges : string -> list (Z * Z)) (files : list string)
    : list FileChange :=
  List.filter
    (fun fc => match changes_of fc with [] => false | _ => true end)
    (map (file_change_set headers ranges) files).

(** A computation only ever appends to the trace. *)
Definition extending {A} (m : M A) : Prop :=
  forall tr, exists ext, fst (m tr) = tr ++ ext.

(** A computation prints nothing. *)
Definition silent {A} (m : M A) : Prop :=
  forall tr, printed (fst (m tr)) = printed tr.

(** The world [w] with another answer to the lint runner's invocation. *)
Definition with_lint_status (status : string -> option error) (w : World)
    : World :=
  {| sh_run := status; sh_output := sh_output w; read_json := read_json w |}.

(** ** Sample data *)

Definition issue_at (file : string) (line : Z) : Issue :=
  {| FromLinter := "errcheck"; Text := "error return value not checked";
     Pos := {| Filename := file; Offset := 0; Line := line; Column := 1 |} |}.

Definition range (s e : Z) : Changes := {| Start := s; End := e |}.

(** The index [{"a.go": [{10, 15}]}]. *)
Definition index_one : gmap string FileChange :=
  getChangesByFileName
    [{| changes_of := [range 10 15]; Path := "a.go" |}].

(** The index [{"a.go": [{1, 2}]}], the range of the header
    [@@ -1,1 +1,1 @@]. *)
Definition index_first_line : gmap string FileChange :=
  getChangesByFileName [{| changes_of := [range 1 2]; Path := "a.go" |}].

(** The index of a file with two ranges that share line 4. *)
Definition index_overlap : gmap string FileChange :=
  getChangesByFileName
    [{| changes_of := [range 1 4; range 4 4]; Path := "a.go" |}].

Definition lines (ls : list string) : string :=
  fold_right (fun l s => l +:+ String newline s) EmptyString ls.

(** A run in which the lint runner fails, [a.go] has two hunks and [b.go]
    a single-line hunk. *)
Definition sample_world : World :=
  {| sh_run := fun _ => Some (ExternalError "exit status 1");
     sh_output := fun c =>
       if String.eqb c " cd .; git diff -U0 --no-commit-id --name-only "
       then Ok (lines ["a.go"; "b.go"])
       else if String.eqb c "cd .; git diff -U0 -- a.go"
       then Ok (lines ["diff --git a/a.go b/a.go";
                       "@@ -0,0 +1,3 @@"; "+// one"; "+// two"; "+// three";
                       "@@ -2,2 +4,0 @@ package a"; "-x"; "-y"])
       else if String.eqb c "cd .; git diff -U0 -- b.go"
       then Ok (lines ["diff --git a/b.go b/b.go"; "@@ -7 +7 @@"; "-p";
                       "+q"])
       else Ok EmptyString;
     read_json := fun f =>
       if String.eqb f "/tmp/golang_ci_lint.json"
       then Ok [issue_at "a.go" 4; issue_at "a.go" 9; issue_at "b.go" 7]
       else Err (ExternalError "open: no such file or directory") |}.

Definition sample_args : Args :=
  {| arg_Pwd := "."; arg_Cmd := "git diff -U0";
     arg_JsonFile := "/tmp/golang_ci_lint.json"; arg_InspectDes := "./..." |}.

(** ** Notions for the further properties *)

(** The command line [listChangedFiles] hands to the shell. *)
Definition list_command (pwd command : string) : string :=
  " cd " +:+ pwd +:+ "; " +:+ command +:+ " --no-commit-id --name-only ".

(** The command line [findHunkHeadersOfFile] hands to the shell. *)
Definition diff_command (pwd cmd file : string) : string :=
  "cd " +:+ pwd +:+ "; " +:+ cmd +:+ " -- " +:+ file.

(** The command line [Execute] hands to the shell for the lint runner that
    [main] configures. *)
Definition lint_command (args : Args) : string :=
  "cd " +:+ arg_Pwd args +:+ "; /home/shane/go/bin/golangci-lint"
    +:+ " run --out-format json:" +:+ arg_JsonFile args +:+ " "
    +:+ arg_InspectDes args.

(** [strings.Join(ls, "\n")] *)
Fixpoint join_lines (ls : list string) : string :=
  match ls with
  | [] => EmptyString
  | [l] => l
  | l :: ls' => l +:+ String newline (join_lines ls')
  end.

(** [strings.HasPrefix(line, "commit ")] *)
Definition is_commit_line (line : string) : bool :=
  String.prefix "commit " line.

(** Every byte of [s] is in the class of the hunk-header pattern. *)
Fixpoint all_in_class (s : string) : bool :=
  match s with
  | EmptyString => true
  | String c s' => hunk.in_class c && all_in_class s'
  end.

(** A run in which the diff of [b.go] fails. *)
Definition world_diff_fails : World :=
  {| sh_run := fun _ => None;
     sh_output := fun c =>
       if String.eqb c (list_command "." "git diff")
       then Ok (lines ["a.go"; "b.go"; "c.go"])
       else if String.eqb c (diff_command "." "git diff" "a.go")
       then Ok (lines ["@@ -10,3 +12,5 @@"; "+x"])
       else Err (ExternalError "exit status 128");
     read_json := fun _ => Ok [issue_at "a.go" 12] |}.

(** A run in which a hunk header of [a.go] holds a line number beyond
    [int64]. *)
Definition world_overflow : World :=
  {| sh_run := fun _ => None;
     sh_output := fun c =>
       if String.eqb c (list_command "." "git diff")
       then Ok (lines ["a.go"; "b.go"])
       else if String.eqb c (diff_command "." "git diff" "a.go")
       then Ok (lines ["@@ -1,1 +2,2 @@"; "+x";
                       "@@ -1,1 +9223372036854775808,1 @@"; "+y"])
       else Ok EmptyString;
     read_json := fun _ => Ok [issue_at "a.go" 2] |}.

(** A run in which the JSON file of the lint runner cannot be read. *)
Definition world_no_json : World :=
  {| sh_run := fun _ => Some (ExternalError "exit status 3");
     sh_output := fun _ => Ok (lines ["a.go"]);
     read_json := fun _ =>
       Err (ExternalError "open: no such file or directory") |}.

(** A run whose listing begins with a commit line. *)
Definition world_commit_first : World :=
  {| sh_run := fun _ => None;
     sh_output := fun _ => Ok (lines ["commit 7b1e126d54a"; "a.go"]);
     read_json := fun _ => Ok [issue_at "a.go" 1] |}.

(** The bounds of a range the parser returns. *)
Definition range_in_bounds (ch : Changes) : Prop :=
  0 <= Start ch <= maxInt64 /\ - 2 ^ 63 <= End ch <= maxInt64.

Definition change_set_ok (fc : FileChange) : Prop :=
  changes_of fc <> [] /\ Forall range_in_bounds (changes_of fc).

(** The calls of the setters of [GolangCILint], to state what holds after
    any chain of them. *)
Inductive setter : Type :=
| CallSetBin (path : string)
| CallSetPwd (path : string)
| CallSetOutputJSON (filename : string)
| CallSetInspectDes (path : string).

Definition apply_setter (g : GolangCILint) (s : setter) : GolangCILint :=
  match s with
  | CallSetBin path => SetBin g path
  | CallSetPwd path => SetPwd g path
  | CallSetOutputJSON filename => SetOutputJSON g filename
  | CallSetInspectDes path => SetInspectDes g path
  end.

(** [g.Set...(...).Set...(...)], the calls in the order they are chained. *)
Definition configure (g : GolangCILint) (calls : list setter)
    : GolangCILint :=
  fold_left apply_setter calls g.

(** ** Blocks of a header, ranges around a line, failing files *)

(** The text [s] begins with a block [+digits,digits]. *)
Definition block_at (s : string) : Prop :=
  exists c d r,
    s = "+" +:+ c +:+ "," +:+ d +:+ r /\ digit_run c /\ digit_run d.

(** The text [s] holds a block [+digits,digits] somewhere. *)
Definition has_block (s : string) : Prop :=
  exists p t, s = p +:+ t /\ block_at t.

(** The ranges [{s, e}] of a list with [s <= line <= e]. *)
Definition ranges_containing (line : Z) (changes : list Changes)
    : list Changes :=
  filter (fun change => Start change <= line <= End change) changes.

(** The first error the parser gives on a list of hunk headers. *)
Fixpoint first_parse_error (headers : list string) : option error :=
  match headers with
  | [] => None
  | h :: headers' =>
      match findChangesByHunkHeader h with
      | Err e => Some e
      | Ok _ => first_parse_error headers'
      end
  end.

(** What makes [findChanges] fail at a listed file: the error of its diff
    command, or else the first error of the parser on its hunk headers. *)
Definition file_error (w : World) (pwd cmd file : string) : option error :=
  match sh_output w (diff_command pwd cmd file) with
  | Err e => Some e
  | Ok output => first_parse_error (hunk.FindAllString output)
  end.

(** * Properties *)

(** ** The parser and the patterns on sample headers *)

Example parse_one :
  findChangesByHunkHeader "@@ -10,3 +12,5 @@" = Ok [(12, 17)].
Proof. reflexivity. Qed.

Example parse_two :
  findChangesByHunkHeader "@@@ -1,2 +3,4 +50,6 @@@" = Ok [(3, 7); (50, 56)].
Proof. reflexivity. Qed.

Example parse_single_number :
  findChangesByHunkHeader "@@ -10 +12 @@" = Ok [].
Proof. reflexivity. Qed.

Example parse_overflow :
  findChangesByHunkHeader "@@ -1,1 +9223372036854775808,1 @@"
  = Err (ErrRange "ParseInt" "9223372036854775808").
Proof. reflexivity. Qed.

Example hunk_headers_example :
  hunk.FindAllString
    ("diff --git a/x.go b/x.go" +:+ String newline
       ("@@ -10,3 +12,5 @@ func f() {" +:+ String newline
          ("+x" +:+ String newline "@@ -40 +44,2 @@")))
  = ["@@ -10,3 +12,5 @@"; "@@ -40 +44,2 @@"].
Proof. reflexivity. Qed.

(** ** Digits and decimal values *)

Lemma is_digit_range c :
  is_digit c = true -> 0 <= digit_val c <= 9.
Proof.
  unfold is_digit, digit_val. intros H.
  apply andb_true_iff in H as [H1 H2].
  apply N.leb_le in H1, H2. lia.
Qed.

Lemma is_digit_not_plus c : is_digit c = true -> Ascii.eqb c "+" = false.
Proof.
  intros H. destruct (Ascii.eqb_spec c "+") as [->|]; [discriminate H|done].
Qed.

Lemma is_digit_not_minus c : is_digit c = true -> Ascii.eqb c "-" = false.
Proof.
  intros H. destruct (Ascii.eqb_spec c "-") as [->|]; [discriminate H|done].
Qed.

Lemma digit_runb_spec s : digit_runb s = true -> digit_run s.
Proof. destruct s; [done|]. intros H. split; done. Qed.

Lemma decimal_acc_ge acc s :
  0 <= acc -> all_digits s = true -> acc <= decimal_acc acc s.
Proof.
  revert acc. induction s as [|c s IH]; intros acc Hacc Hs; simpl in *.
  - lia.
  - apply andb_true_iff in Hs as [Hc Hs].
    pose proof (is_digit_range c Hc).
    specialize (IH (acc * 10 + digit_val c) ltac:(lia) Hs). lia.
Qed.

Lemma decimal_nonneg s : all_digits s = true -> 0 <= decimal s.
Proof. intros H. apply (decimal_acc_ge 0 s); [lia|done]. Qed.

(** ** strconv *)

Lemma cutoff_value : strconv.cutoff = 1844674407370955162.
Proof. reflexivity. Qed.

Lemma maxUint64_value : maxUint64 = 18446744073709551615.
Proof. reflexivity. Qed.

Lemma uint64_small z : 0 <= z <= maxUint64 -> uint64 z = z.
Proof.
  rewrite maxUint64_value. intros H. unfold uint64.
  apply Z.mod_small. change (2 ^ 64) with 18446744073709551616. lia.
Qed.

Lemma int64_small z : - 2 ^ 63 <= z <= maxInt64 -> int64 z = z.
Proof.
  unfold maxInt64, int64. intros H.
  rewrite Z.mod_small; [lia|].
  change (2 ^ 64) with (2 ^ 63 + 2 ^ 63). lia.
Qed.

Lemma int64_range z : - 2 ^ 63 <= int64 z <= maxInt64.
Proof.
  unfold maxInt64, int64.
  pose proof (Z.mod_pos_bound (z + 2 ^ 63) (2 ^ 64) ltac:(lia)) as H.
  change (2 ^ 64) with (2 ^ 63 + 2 ^ 63) in *. lia.
Qed.

(** The digit loop computes the decimal value, or reports a range error
    exactly when that value does not fit 64 bits. *)
Lemma ParseUint_loop_digits s0 s n :
  all_digits s = true -> 0 <= n <= maxUint64 ->
  strconv.ParseUint_loop s0 s n =
    if decimal_acc n s <=? maxUint64 then Ok (decimal_acc n s)
    else Err (ErrRange "ParseUint" s0).
Proof.
  revert n. induction s as [|c s IH]; intros n Hs Hn; simpl in *.
  - destruct (Z.leb_spec n maxUint64); [done|lia].
  - apply andb_true_iff in Hs as [Hc Hs]. rewrite Hc.
    pose proof (is_digit_range c Hc) as Hd.
    rewrite cutoff_value. rewrite maxUint64_value in Hn.
    destruct (Z.leb_spec 1844674407370955162 n) as [Hcut|Hcut].
    + pose proof (decimal_acc_ge (n * 10 + digit_val c) s ltac:(lia) Hs).
      destruct (Z.leb_spec (decimal_acc (n * 10 + digit_val c) s) maxUint64)
        as [Hle|]; [|done].
      rewrite maxUint64_value in Hle. lia.
    + rewrite (uint64_small (n * 10)) by (rewrite maxUint64_value; lia).
      destruct (Z.le_gt_cases (n * 10 + digit_val c) maxUint64) as [Hfit|Hov].
      * rewrite (uint64_small (n * 10 + digit_val c))
          by (split; [lia|done]).
        destruct (Z.ltb_spec (n * 10 + digit_val c) (n * 10)); [lia|].
        destruct (Z.ltb_spec maxUint64 (n * 10 + digit_val c)); [lia|].
        simpl. apply IH; [done|]. split; [lia|done].
      * rewrite maxUint64_value in Hov.
        assert (uint64 (n * 10 + digit_val c)
                = n * 10 + digit_val c - 18446744073709551616) as ->.
        { unfold uint64. change (2 ^ 64) with 18446744073709551616.
          symmetry. apply (Z.mod_unique _ _ 1); lia. }
        destruct (Z.ltb_spec (n * 10 + digit_val c - 18446744073709551616)
                    (n * 10)); [|lia].
        simpl.
        pose proof (decimal_acc_ge (n * 10 + digit_val c) s ltac:(lia) Hs).
        destruct (Z.leb_spec (decimal_acc (n * 10 + digit_val c) s) maxUint64)
          as [Hle|]; [|done].
        rewrite maxUint64_value in Hle. lia.
Qed.

(** On a run of digits, [ParseInt] returns the decimal value when it is at
    most [maxInt64], and a range error otherwise. *)
Lemma ParseInt_digits s :
  digit_run s ->
  strconv.ParseInt s =
    if decimal s <=? maxInt64 then Ok (decimal s)
    else Err (ErrRange "ParseInt" s).
Proof.
  intros [Hne Hs]. destruct s as [|c s]; [done|].
  pose proof Hs as Hs'. simpl in Hs'.
  apply andb_true_iff in Hs' as [Hc _].
  unfold strconv.ParseInt.
  rewrite (is_digit_not_plus c Hc), (is_digit_not_minus c Hc).
  unfold strconv.ParseUint.
  rewrite (ParseUint_loop_digits _ _ 0 Hs)
    by (rewrite maxUint64_value; lia).
  fold (decimal (String c s)).
  pose proof (decimal_nonneg _ Hs) as Hpos.
  set (v := decimal (String c s)) in *.
  unfold maxInt64. rewrite maxUint64_value.
  change (2 ^ 63) with 9223372036854775808.
  destruct (Z.leb_spec v 18446744073709551615) as [Hfit|Hbig]; simpl.
  - destruct (Z.leb_spec 9223372036854775808 v);
      destruct (Z.leb_spec v (9223372036854775808 - 1)); try lia; [done|].
    rewrite int64_small; [done|]. unfold maxInt64.
    change (2 ^ 63) with 9223372036854775808. lia.
  - destruct (Z.leb_spec v (9223372036854775808 - 1)); [lia|done].
Qed.

Lemma ParseInt_digits_ok s :
  digit_run s -> decimal s <= maxInt64 ->
  strconv.ParseInt s = Ok (decimal s).
Proof.
  intros Hs Hle. rewrite (ParseInt_digits s Hs).
  destruct (Z.leb_spec (decimal s) maxInt64); [done|lia].
Qed.

Lemma ParseInt_digits_inv s v :
  digit_run s -> strconv.ParseInt s = Ok v ->
  v = decimal s /\ 0 <= v <= maxInt64.
Proof.
  intros Hs. rewrite (ParseInt_digits s Hs).
  destruct (Z.leb_spec (decimal s) maxInt64); [|done].
  intros [= <-]. pose proof (decimal_nonneg s (proj2 Hs)). lia.
Qed.

(** ** Strings *)

Lemma append_nil_l (s : string) : "" +:+ s = s.
Proof. reflexivity. Qed.

Lemma append_cons c (s1 s2 : string) :
  String c s1 +:+ s2 = String c (s1 +:+ s2).
Proof. reflexivity. Qed.

Ltac str_norm := rewrite ?append_cons, ?append_nil_l.
Ltac str_norm_all := rewrite ?append_cons, ?append_nil_l in *.
Ltac str_simpl := str_norm; simpl.

Lemma append_assoc (s1 s2 s3 : string) :
  (s1 +:+ s2) +:+ s3 = s1 +:+ (s2 +:+ s3).
Proof. induction s1 as [|c s1 IH]; str_simpl; [done|by rewrite IH]. Qed.

Lemma append_length (s1 s2 : string) :
  String.length (s1 +:+ s2) = (String.length s1 + String.length s2)%nat.
Proof. induction s1 as [|c s1 IH]; str_simpl; [done|by rewrite IH]. Qed.

(** ** The pattern [[+](\d+),(\d+)] *)

Module regexp_facts.
Import regexp.

Lemma digits_prefix_spec s ds r :
  digits_prefix s = (ds, r) ->
  s = ds +:+ r /\ all_digits ds = true /\ not_starting is_digit r = true.
Proof.
  revert ds r. induction s as [|c s IH]; intros ds r; simpl.
  - intros [= <- <-]. done.
  - destruct (is_digit c) eqn:Hc.
    + destruct (digits_prefix s) as [ds' r'] eqn:Hp.
      intros [= <- <-]. destruct (IH _ _ eq_refl) as (-> & Hds & Hr).
      str_simpl. by rewrite Hc, Hds.
    + intros [= <- <-]. str_simpl. by rewrite Hc.
Qed.

Lemma digits_prefix_app ds r :
  all_digits ds = true -> not_starting is_digit r = true ->
  digits_prefix (ds +:+ r) = (ds, r).
Proof.
  intros Hds Hr. induction ds as [|c ds IH]; str_simpl; simpl in Hds.
  - destruct r as [|c r]; [done|]. simpl in *.
    apply negb_true_iff in Hr. by rewrite Hr.
  - apply andb_true_iff in Hds as [Hc Hds]. by rewrite Hc, IH.
Qed.

(** [match_here] with its byte tests spelled as comparisons. *)
Lemma match_here_unfold c s1 :
  match_here (String c s1) =
    if Ascii.eqb c "+" then
      match digits_prefix s1 with
      | (String c1 g1 as m1, String c' s2) =>
          if Ascii.eqb c' "," then
            match digits_prefix s2 with
            | (String c2 g2 as m2, _) =>
                Some ((m1, m2),
                      (1 + String.length m1 + 1 + String.length m2)%nat)
            | _ => None
            end
          else None
      | _ => None
      end
    else None.
Proof.
  destruct (Ascii.eqb_spec c "+") as [->|Hc].
  - simpl. destruct (digits_prefix s1) as [[|c1 g1] [|c' s2]]; try done.
    destruct (Ascii.eqb_spec c' ",") as [->|Hc']; [done|].
    destruct c' as [[] [] [] [] [] [] [] []]; try done.
  - destruct c as [[] [] [] [] [] [] [] []]; try done.
Qed.

Lemma match_here_block c d r :
  digit_run c -> digit_run d -> not_starting is_digit r = true ->
  match_here ("+" +:+ c +:+ "," +:+ d +:+ r) =
    Some ((c, d), (1 + String.length c + 1 + String.length d)%nat).
Proof.
  intros [Hc1 Hc2] [Hd1 Hd2] Hr. str_norm.
  rewrite match_here_unfold. simpl.
  rewrite (digits_prefix_app c (String "," (d +:+ r)) Hc2 eq_refl).
  destruct c as [|c1 g1]; [done|]. simpl.
  rewrite (digits_prefix_app d r Hd2 Hr).
  destruct d as [|c2 g2]; done.
Qed.

(** Every reading of a prefix of the text as [+c,d], [c] and [d] runs of
    digits, is extended by [match_here] to the match with the same [c] and
    the longest [d]: the leftmost-first, greedy match of the pattern. *)
Lemma match_here_greedy c d r :
  digit_run c -> digit_run d ->
  exists x r',
    r = x +:+ r' /\ all_digits x = true
    /\ not_starting is_digit r' = true
    /\ match_here ("+" +:+ c +:+ "," +:+ d +:+ r)
       = Some ((c, d +:+ x),
               (1 + String.length c + 1 + String.length (d +:+ x))%nat).
Proof.
  intros Hc [Hd1 Hd2].
  destruct (digits_prefix r) as [x r'] eqn:Hp.
  apply digits_prefix_spec in Hp as (-> & Hx & Hr').
  exists x, r'. repeat split; try done.
  rewrite <- (append_assoc d x r'). apply match_here_block; try done.
  split.
  - destruct d; [done|]. by str_norm.
  - clear Hd1. induction d as [|a d IH]; str_norm; [done|].
    cbn [all_digits] in *. apply andb_true_iff in Hd2 as [Ha Hd].
    by rewrite Ha, IH.
Qed.

Lemma match_here_inv s m len :
  match_here s = Some (m, len) ->
  digit_run (fst m) /\ digit_run (snd m) /\
  exists r, s = "+" +:+ fst m +:+ "," +:+ snd m +:+ r
            /\ not_starting is_digit r = true
            /\ len = (1 + String.length (fst m) + 1
                      + String.length (snd m))%nat.
Proof.
  destruct s as [|c s1]; [done|]. rewrite match_here_unfold.
  destruct (Ascii.eqb_spec c "+") as [->|]; [|done].
  destruct (digits_prefix s1) as [m1 r1] eqn:H1.
  destruct m1 as [|c1 g1]; [done|]. destruct r1 as [|c' s2]; [done|].
  destruct (Ascii.eqb_spec c' ",") as [->|]; [|done].
  destruct (digits_prefix s2) as [m2 r2] eqn:H2.
  destruct m2 as [|c2 g2]; [done|].
  intros [= <- <-]. simpl fst. simpl snd.
  apply digits_prefix_spec in H1 as (-> & Hm1 & _).
  apply digits_prefix_spec in H2 as (-> & Hm2 & Hr2).
  repeat split; try done. exists r2.
  split; [by str_norm|]. split; [done|]. simpl. lia.
Qed.

Lemma match_here_not_plus c s :
  Ascii.eqb c "+" = false -> match_here (String c s) = None.
Proof. intros H. by rewrite match_here_unfold, H. Qed.

Lemma lacks_cons c c' s :
  lacks c (String c' s) = true ->
  Ascii.eqb c' c = false /\ lacks c s = true.
Proof.
  change (lacks c (String c' s)) with (negb (Ascii.eqb c c') && lacks c s).
  intros H. apply andb_true_iff in H as [Hc Hs].
  apply negb_true_iff in Hc. by rewrite Ascii.eqb_sym.
Qed.

Lemma FindAll_from_skip pre s k :
  FindAll_from (String.length pre + k) (pre +:+ s) = FindAll_from k s.
Proof. induction pre as [|c pre IH]; str_simpl; done. Qed.

Lemma FindAll_from_lacks pre s :
  lacks "+" pre = true ->
  FindAll_from 0 (pre +:+ s) = FindAll_from 0 s.
Proof.
  induction pre as [|c pre IH]; intros H; str_norm; [done|].
  apply lacks_cons in H as [Hc Hpre]. cbn [FindAll_from].
  rewrite (match_here_not_plus c (pre +:+ s) Hc). auto.
Qed.

Lemma FindAll_lacks_nil s :
  lacks "+" s = true -> FindAllStringSubmatch s = [].
Proof.
  unfold FindAllStringSubmatch.
  induction s as [|c s IH]; intros H; [done|].
  apply lacks_cons in H as [Hc Hs]. cbn [FindAll_from].
  rewrite (match_here_not_plus c s Hc). auto.
Qed.

(** A block [+c,d] that is not followed by a digit is one match, and the
    search goes on right after it. *)
Lemma FindAll_block c d r :
  digit_run c -> digit_run d -> not_starting is_digit r = true ->
  FindAll_from 0 ("+" +:+ c +:+ "," +:+ d +:+ r)
  = (c, d) :: FindAll_from 0 r.
Proof.
  intros Hc Hd Hr.
  pose proof (match_here_block c d r Hc Hd Hr) as Hm.
  str_norm_all.
  cbn [FindAll_from]. rewrite Hm. f_equal.
  replace (c +:+ String "," (d +:+ r))
    with ((c +:+ String "," d) +:+ r)
    by (rewrite append_assoc; by str_norm).
  replace (1 + String.length c + 1 + String.length d - 1)%nat
    with (String.length (c +:+ String "," d) + 0)%nat
    by (rewrite append_length; simpl; lia).
  apply FindAll_from_skip.
Qed.

(** A ['+'] followed by a run of digits but no [,digit] is no match. *)
Lemma match_here_single n r :
  all_digits n = true ->
  not_starting is_digit r = true ->
  not_starting (Ascii.eqb ",") r = true ->
  match_here ("+" +:+ n +:+ r) = None.
Proof.
  intros Hn Hr Hcomma. str_norm.
  rewrite match_here_unfold. simpl.
  rewrite (digits_prefix_app n r Hn Hr).
  destruct n as [|c1 g1]; [done|]. destruct r as [|c' s2]; [done|].
  unfold not_starting in Hcomma. apply negb_true_iff in Hcomma.
  rewrite Ascii.eqb_sym in Hcomma. by rewrite Hcomma.
Qed.

Lemma FindAll_from_groups k s m :
  In m (FindAll_from k s) -> digit_run (fst m) /\ digit_run (snd m).
Proof.
  revert k. induction s as [|c s IH]; intros k; [done|].
  cbn [FindAll_from]. destruct k as [|k]; [|by apply IH].
  destruct (match_here (String c s)) as [[m' len]|] eqn:Hm; [|by apply IH].
  intros [<-|Hin]; [|by eapply IH].
  apply match_here_inv in Hm as (H1 & H2 & _). done.
Qed.

End regexp_facts.

Lemma lacks_app c s1 s2 :
  lacks c (s1 +:+ s2) = lacks c s1 && lacks c s2.
Proof.
  induction s1 as [|c' s1 IH]; str_norm; [done|].
  cbn [lacks]. by rewrite IH, andb_assoc.
Qed.

Lemma all_digits_lacks_plus s : all_digits s = true -> lacks "+" s = true.
Proof.
  induction s as [|c s IH]; [done|]. cbn [all_digits lacks]. intros H.
  apply andb_true_iff in H as [Hc Hs]. rewrite (IH Hs), andb_true_r.
  apply negb_true_iff. rewrite Ascii.eqb_sym. by apply is_digit_not_plus.
Qed.

Ltac str_assoc :=
  repeat (rewrite append_assoc || rewrite append_cons
          || rewrite append_nil_l).

(** ** The parser of hunk headers *)

Lemma ranges_of_matches_cons m ms acc :
  ranges_of_matches (m :: ms) acc =
    (try r := range_of_match m in ranges_of_matches ms (acc ++ [r]))%result.
Proof.
  cbn [ranges_of_matches]. unfold range_of_match, rbind.
  destruct (strconv.ParseInt (fst m)); [|done].
  destruct (strconv.ParseInt (snd m)); done.
Qed.

Lemma ranges_of_matches_Ok ms acc rs :
  ranges_of_matches ms acc = Ok rs <->
  exists rs', Forall2 (fun m r => range_of_match m = Ok r) ms rs'
              /\ rs = acc ++ rs'.
Proof.
  revert acc. induction ms as [|m ms IH]; intros acc.
  - simpl. split.
    + intros [= <-]. exists []. split; [constructor|by rewrite app_nil_r].
    + intros (rs' & H & ->). inversion H. by rewrite app_nil_r.
  - rewrite ranges_of_matches_cons. unfold rbind.
    destruct (range_of_match m) as [r|e] eqn:Hm.
    + rewrite IH. split.
      * intros (rs' & H & ->). exists (r :: rs').
        split; [by constructor|by rewrite <- app_assoc].
      * intros (rs' & H & ->). inversion H as [|? r' ? rs'' Hr Hrest]; subst.
        assert (r' = r) as -> by congruence.
        exists rs''. split; [done|by rewrite <- app_assoc].
    + split; [done|]. intros (rs' & H & _). inversion H; congruence.
Qed.

Lemma ranges_of_matches_Err ms acc e :
  ranges_of_matches ms acc = Err e ->
  exists m, In m ms /\ range_of_match m = Err e.
Proof.
  revert acc. induction ms as [|m ms IH]; intros acc; [done|].
  rewrite ranges_of_matches_cons. unfold rbind.
  destruct (range_of_match m) as [r|e'] eqn:Hm.
  - intros H. destruct (IH _ H) as (m' & Hin & Hm').
    exists m'. split; [by right|done].
  - intros [= ->]. exists m. split; [by left|done].
Qed.

(** A block of two digit runs whose sum fits an [int64] gives the range
    [start, start + length]. *)
Lemma range_of_match_digits c d :
  digit_run c -> digit_run d -> decimal c + decimal d <= maxInt64 ->
  range_of_match (c, d) = Ok (decimal c, decimal c + decimal d).
Proof.
  intros Hc Hd Hsum.
  pose proof (decimal_nonneg c (proj2 Hc)).
  pose proof (decimal_nonneg d (proj2 Hd)).
  unfold range_of_match. simpl.
  rewrite (ParseInt_digits_ok c Hc), (ParseInt_digits_ok d Hd) by lia.
  simpl. unfold int.
  rewrite (int64_small (decimal c)) by (unfold maxInt64 in *; lia).
  rewrite !(int64_small (decimal c + decimal d))
    by (unfold maxInt64 in *; lia).
  done.
Qed.

Lemma range_of_match_inv m r :
  digit_run (fst m) -> digit_run (snd m) ->
  range_of_match m = Ok r ->
  0 <= decimal (fst m) <= maxInt64 /\ 0 <= decimal (snd m) <= maxInt64 /\
  r = (decimal (fst m), int64 (decimal (fst m) + decimal (snd m))).
Proof.
  intros H1 H2. unfold range_of_match, rbind.
  destruct (strconv.ParseInt (fst m)) as [s|] eqn:Hs; [|done].
  destruct (strconv.ParseInt (snd m)) as [a|] eqn:Ha; [|done].
  apply ParseInt_digits_inv in Hs as [-> Hs]; [|done].
  apply ParseInt_digits_inv in Ha as [-> Ha]; [|done].
  intros [= <-]. repeat split; try lia.
  unfold int. rewrite (int64_small (decimal (fst m))).
  - f_equal. apply int64_small. apply int64_range.
  - unfold maxInt64 in *. lia.
Qed.

Lemma findChanges_one_block pre c d post :
  lacks "+" pre = true -> digit_run c -> digit_run d ->
  lacks "+" post = true -> not_starting is_digit post = true ->
  regexp.FindAllStringSubmatch (pre +:+ "+" +:+ c +:+ "," +:+ d +:+ post)
  = [(c, d)].
Proof.
  intros Hpre Hc Hd Hpost Hpost'. unfold regexp.FindAllStringSubmatch.
  rewrite (regexp_facts.FindAll_from_lacks pre _ Hpre).
  rewrite (regexp_facts.FindAll_block c d post Hc Hd Hpost').
  f_equal. apply (regexp_facts.FindAll_lacks_nil post Hpost).
Qed.

Lemma findChanges_two_blocks pre c1 d1 mid c2 d2 post :
  lacks "+" pre = true -> digit_run c1 -> digit_run d1 ->
  lacks "+" mid = true -> not_starting is_digit mid = true ->
  digit_run c2 -> digit_run d2 ->
  lacks "+" post = true -> not_starting is_digit post = true ->
  regexp.FindAllStringSubmatch
    (pre +:+ "+" +:+ c1 +:+ "," +:+ d1 +:+ mid
         +:+ "+" +:+ c2 +:+ "," +:+ d2 +:+ post)
  = [(c1, d1); (c2, d2)].
Proof.
  intros Hpre Hc1 Hd1 Hmid Hmid' Hc2 Hd2 Hpost Hpost'.
  unfold regexp.FindAllStringSubmatch.
  rewrite (regexp_facts.FindAll_from_lacks pre _ Hpre).
  replace ("+" +:+ c1 +:+ "," +:+ d1 +:+ mid
               +:+ "+" +:+ c2 +:+ "," +:+ d2 +:+ post)
    with ("+" +:+ c1 +:+ "," +:+ d1
              +:+ (mid +:+ "+" +:+ c2 +:+ "," +:+ d2 +:+ post)) by done.
  rewrite regexp_facts.FindAll_block; [|done|done|].
  - f_equal. apply (findChanges_one_block mid c2 d2 post); done.
  - destruct mid; done.
Qed.

Lemma hunk_header_shape a b c d :
  hunk_header a b c d
  = ("@@ -" +:+ a +:+ "," +:+ b +:+ " ")
      +:+ "+" +:+ c +:+ "," +:+ d +:+ " @@".
Proof. unfold hunk_header. by str_assoc. Qed.

Lemma hunk_header_pre a b :
  digit_run a -> digit_run b ->
  lacks "+" ("@@ -" +:+ a +:+ "," +:+ b +:+ " ") = true.
Proof.
  intros [_ Ha] [_ Hb]. rewrite !lacks_app.
  rewrite (all_digits_lacks_plus a Ha), (all_digits_lacks_plus b Hb). done.
Qed.

(** *** Headers with and without blocks *)

Lemma digits_prefix_local s t :
  not_starting is_digit t = true ->
  regexp.digits_prefix (s +:+ t)
  = (fst (regexp.digits_prefix s), snd (regexp.digits_prefix s) +:+ t).
Proof.
  intros Ht. induction s as [|c s IH]; str_norm.
  - destruct t as [|a t]; [done|]. unfold not_starting in Ht.
    apply negb_true_iff in Ht. cbn [regexp.digits_prefix]. by rewrite Ht.
  - cbn [regexp.digits_prefix]. destruct (is_digit c); [|done].
    rewrite IH. by destruct (regexp.digits_prefix s).
Qed.

(** Whether the pattern matches at the first byte of a text, and what it
    captures, does not depend on what follows the text, when that begins
    with neither a digit nor a comma. *)
Lemma match_here_local c s t :
  not_starting is_digit t = true ->
  not_starting (Ascii.eqb ",") t = true ->
  regexp.match_here (String c s +:+ t) = regexp.match_here (String c s).
Proof.
  intros Hd Hc. rewrite append_cons, !regexp_facts.match_here_unfold.
  destruct (Ascii.eqb c "+"); [|done].
  rewrite (digits_prefix_local s t Hd).
  destruct (regexp.digits_prefix s) as [m1 r1]. cbn [fst snd].
  destruct m1 as [|c1 g1]; [done|]. destruct r1 as [|c' s2]; str_norm.
  - destruct t as [|a t]; [done|]. unfold not_starting in Hc.
    apply negb_true_iff in Hc. rewrite Ascii.eqb_sym in Hc. by rewrite Hc.
  - destruct (Ascii.eqb c' ","); [|done].
    rewrite (digits_prefix_local s2 t Hd).
    by destruct (regexp.digits_prefix s2) as [[|c2 g2] r2].
Qed.

Lemma match_here_length s m len :
  regexp.match_here s = Some (m, len) -> (len <= String.length s)%nat.
Proof.
  intros H. apply regexp_facts.match_here_inv in H
    as (_ & _ & r & -> & _ & ->).
  rewrite !append_length. simpl. lia.
Qed.

(** The matches of a text followed by another that begins with neither a
    digit nor a comma are those of the first, then those of the second. *)
Lemma FindAll_from_app k s t :
  (k <= String.length s)%nat ->
  not_starting is_digit t = true ->
  not_starting (Ascii.eqb ",") t = true ->
  regexp.FindAll_from k (s +:+ t)
  = regexp.FindAll_from k s ++ regexp.FindAll_from 0 t.
Proof.
  intros Hk Hd Hc. revert k Hk.
  induction s as [|c s IH]; intros k Hk.
  - simpl in Hk. by replace k with 0%nat by lia.
  - pose proof (match_here_local c s t Hd Hc) as Hm.
    rewrite append_cons in *. cbn [regexp.FindAll_from].
    simpl in Hk. destruct k as [|k]; [|apply IH; lia].
    rewrite Hm.
    destruct (regexp.match_here (String c s)) as [[m len]|] eqn:Hs.
    + apply match_here_length in Hs. simpl in Hs.
      rewrite IH by lia. done.
    + apply IH. lia.
Qed.

Lemma block_at_match s :
  block_at s <-> regexp.match_here s <> None.
Proof.
  split.
  - intros (c & d & r & -> & Hc & Hd).
    destruct (regexp_facts.match_here_greedy c d r Hc Hd)
      as (x & r' & _ & _ & _ & ->). done.
  - destruct (regexp.match_here s) as [[m len]|] eqn:Hm; [|done].
    intros _. apply regexp_facts.match_here_inv in Hm
      as (H1 & H2 & r & -> & _).
    by exists (fst m), (snd m), r.
Qed.

Lemma no_block_FindAll s :
  ~ has_block s -> regexp.FindAllStringSubmatch s = [].
Proof.
  unfold regexp.FindAllStringSubmatch.
  induction s as [|c s IH]; intros Hno; [done|].
  cbn [regexp.FindAll_from].
  destruct (regexp.match_here (String c s)) as [[m len]|] eqn:Hm.
  - exfalso. apply Hno. exists EmptyString, (String c s).
    split; [done|]. apply block_at_match. by rewrite Hm.
  - apply IH. intros (p & t & -> & Ht). apply Hno.
    exists (String c p), t. split; [by str_norm|done].
Qed.

Lemma has_block_FindAll s :
  has_block s -> regexp.FindAllStringSubmatch s <> [].
Proof.
  unfold regexp.FindAllStringSubmatch.
  intros (p & t & -> & Ht). induction p as [|c p IH]; str_norm.
  - apply block_at_match in Ht. destruct t as [|c t]; [done|].
    cbn [regexp.FindAll_from].
    by destruct (regexp.match_here (String c t)) as [[m len]|].
  - cbn [regexp.FindAll_from].
    by destruct (regexp.match_here (String c (p +:+ t))) as [[m len]|].
Qed.

Lemma FindAll_after_no_block pre t :
  ~ has_block pre ->
  not_starting is_digit t = true ->
  not_starting (Ascii.eqb ",") t = true ->
  regexp.FindAll_from 0 (pre +:+ t) = regexp.FindAll_from 0 t.
Proof.
  intros Hno Hd Hc. rewrite FindAll_from_app by (try done; lia).
  apply no_block_FindAll in Hno.
  unfold regexp.FindAllStringSubmatch in Hno. by rewrite Hno.
Qed.

Lemma FindAll_two_blocks pre c1 d1 mid c2 d2 post :
  ~ has_block pre -> digit_run c1 -> digit_run d1 ->
  ~ has_block mid -> not_starting is_digit mid = true ->
  digit_run c2 -> digit_run d2 ->
  ~ has_block post -> not_starting is_digit post = true ->
  regexp.FindAllStringSubmatch
    (pre +:+ "+" +:+ c1 +:+ "," +:+ d1 +:+ mid
         +:+ "+" +:+ c2 +:+ "," +:+ d2 +:+ post)
  = [(c1, d1); (c2, d2)].
Proof.
  intros Hpre Hc1 Hd1 Hmid Hmid' Hc2 Hd2 Hpost Hpost'.
  unfold regexp.FindAllStringSubmatch.
  rewrite (FindAll_after_no_block pre) by done.
  rewrite regexp_facts.FindAll_block; [|done|done|by destruct mid].
  f_equal. rewrite (FindAll_after_no_block mid) by done.
  rewrite regexp_facts.FindAll_block by done. f_equal.
  by apply no_block_FindAll.
Qed.

(** C2, as the code has it: for every hunk header [@@ -a,b +c,d @@] whose
    four fields are runs of decimal digits and whose [c + d] does not
    exceed the largest [int64], [findChangesByHunkHeader] returns exactly
    one range, [{start = c, end = c + d}]; for a header that holds the two
    blocks [+c1,d1] and [+c2,d2] and no other (no block before, between or
    after them; [d1] and [d2] are whole runs of digits: what follows them
    is not a digit) whose sums fit as well, it returns exactly the two
    ranges, the left block's first. *)
Theorem findChangesByHunkHeader_ranges :
  (forall a b c d,
      digit_run a -> digit_run b -> digit_run c -> digit_run d ->
      decimal c + decimal d <= maxInt64 ->
      findChangesByHunkHeader (hunk_header a b c d)
      = Ok [(decimal c, decimal c + decimal d)])
  /\
  (forall pre c1 d1 mid c2 d2 post,
      ~ has_block pre -> digit_run c1 -> digit_run d1 ->
      ~ has_block mid -> not_starting is_digit mid = true ->
      digit_run c2 -> digit_run d2 ->
      ~ has_block post -> not_starting is_digit post = true ->
      decimal c1 + decimal d1 <= maxInt64 ->
      decimal c2 + decimal d2 <= maxInt64 ->
      findChangesByHunkHeader
        (pre +:+ "+" +:+ c1 +:+ "," +:+ d1 +:+ mid
             +:+ "+" +:+ c2 +:+ "," +:+ d2 +:+ post)
      = Ok [(decimal c1, decimal c1 + decimal d1);
            (decimal c2, decimal c2 + decimal d2)]).
Proof.
  split.
  - intros a b c d Ha Hb Hc Hd Hsum. unfold findChangesByHunkHeader.
    rewrite hunk_header_shape.
    rewrite findChanges_one_block;
      [|by apply hunk_header_pre|done|done|done|done].
    rewrite ranges_of_matches_cons, (range_of_match_digits c d); done.
  - intros pre c1 d1 mid c2 d2 post Hpre Hc1 Hd1 Hmid Hmid' Hc2 Hd2
      Hpost Hpost' Hs1 Hs2.
    unfold findChangesByHunkHeader.
    rewrite FindAll_two_blocks; try done.
    rewrite ranges_of_matches_cons, (range_of_match_digits c1 d1); try done.
    cbn [rbind].
    rewrite ranges_of_matches_cons, (range_of_match_digits c2 d2); done.
Qed.

Lemma findChangesByHunkHeader_ranges_witness :
  findChangesByHunkHeader "@@ -10,3 +12,5 @@" = Ok [(12, 17)]
  /\ findChangesByHunkHeader "@@@ -1,2 -3,4 +5,6 +70,8 @@@"
     = Ok [(5, 11); (70, 78)]
  /\ findChangesByHunkHeader "@@ + +1,2 +3,4 @@" = Ok [(1, 3); (3, 7)].
Proof.
  assert (forall s, regexp.FindAllStringSubmatch s = [] -> ~ has_block s)
    as Hno by (intros s Hs Hb; by apply (has_block_FindAll s Hb)).
  split; [|split].
  - apply (proj1 findChangesByHunkHeader_ranges "10" "3" "12" "5");
      try (apply digit_runb_spec; reflexivity).
    vm_compute. discriminate.
  - apply (proj2 findChangesByHunkHeader_ranges
             "@@@ -1,2 -3,4 " "5" "6" " " "70" "8" " @@@");
      try reflexivity; try (apply digit_runb_spec; reflexivity);
      try (apply Hno; reflexivity);
      vm_compute; discriminate.
  - apply (proj2 findChangesByHunkHeader_ranges
             "@@ + " "1" "2" " " "3" "4" " @@");
      try reflexivity; try (apply digit_runb_spec; reflexivity);
      try (apply Hno; reflexivity);
      vm_compute; discriminate.
Defined.

(** C2, as the claim states it, fails where a field or the sum leaves the
    range of [int64]: a start of 2^63 is a range error, so is a length of
    2^63, and the end of [+9223372036854775807,1] wraps to -2^63. *)
Lemma findChangesByHunkHeader_ranges_counterexample :
  findChangesByHunkHeader (hunk_header "1" "1" "9223372036854775808" "1")
  = Err (ErrRange "ParseInt" "9223372036854775808")
  /\ findChangesByHunkHeader (hunk_header "1" "1" "1" "9223372036854775808")
     = Err (ErrRange "ParseInt" "9223372036854775808")
  /\ findChangesByHunkHeader (hunk_header "1" "1" "9223372036854775807" "1")
     = Ok [(9223372036854775807, -9223372036854775808)]
  /\ ~ (forall a b c d,
           digit_run a -> digit_run b -> digit_run c -> digit_run d ->
           findChangesByHunkHeader (hunk_header a b c d)
           = Ok [(decimal c, decimal c + decimal d)]).
Proof.
  split; [reflexivity|]. split; [reflexivity|]. split; [reflexivity|].
  intros H.
  specialize (H "1" "1" "9223372036854775808" "1"
                (digit_runb_spec "1" eq_refl) (digit_runb_spec "1" eq_refl)
                (digit_runb_spec "9223372036854775808" eq_refl)
                (digit_runb_spec "1" eq_refl)).
  vm_compute in H. discriminate H.
Qed.

(** C3: a header that holds no block [+digits,digits] gives the empty list
    of ranges and no error, and only such a header does; in particular a
    header without any ['+'], and a header whose only ['+'] is followed by
    a single number with no [,length] after it ([+N]). *)
Theorem findChangesByHunkHeader_no_block :
  (forall hunkHeader,
      findChangesByHunkHeader hunkHeader = Ok [] <-> ~ has_block hunkHeader)
  /\
  (forall hunkHeader,
      lacks "+" hunkHeader = true ->
      findChangesByHunkHeader hunkHeader = Ok [])
  /\
  (forall pre n post,
      lacks "+" pre = true -> all_digits n = true ->
      lacks "+" post = true ->
      not_starting is_digit post = true ->
      not_starting (Ascii.eqb ",") post = true ->
      findChangesByHunkHeader (pre +:+ "+" +:+ n +:+ post) = Ok []).
Proof.
  split; [|split].
  - intros h. unfold findChangesByHunkHeader. split.
    + intros Hr Hb. apply has_block_FindAll in Hb.
      destruct (regexp.FindAllStringSubmatch h) as [|m ms]; [done|].
      apply ranges_of_matches_Ok in Hr as (rs' & Hall & Hrs).
      simpl in Hrs. subst rs'. inversion Hall.
    + intros Hno. by rewrite (no_block_FindAll h Hno).
  - intros h Hh. unfold findChangesByHunkHeader.
    by rewrite (regexp_facts.FindAll_lacks_nil h Hh).
  - intros pre n post Hpre Hn Hpost Hdig Hcomma.
    unfold findChangesByHunkHeader, regexp.FindAllStringSubmatch.
    rewrite (regexp_facts.FindAll_from_lacks pre _ Hpre).
    pose proof (regexp_facts.match_here_single n post Hn Hdig Hcomma) as Hm.
    str_norm_all. cbn [regexp.FindAll_from]. rewrite Hm.
    assert (lacks "+" (n +:+ post) = true) as Hrest
      by (by rewrite lacks_app, (all_digits_lacks_plus n Hn), Hpost).
    apply regexp_facts.FindAll_lacks_nil in Hrest.
    unfold regexp.FindAllStringSubmatch in Hrest. by rewrite Hrest.
Qed.

Lemma findChangesByHunkHeader_no_block_witness :
  findChangesByHunkHeader "@@ -10,3 @@" = Ok []
  /\ findChangesByHunkHeader "@@ -10,3 +12 @@" = Ok []
  /\ findChangesByHunkHeader "@@ -10 +12 @@" = Ok []
  /\ findChangesByHunkHeader "@@ -1 +12, @@" = Ok []
  /\ findChangesByHunkHeader "@@ +2 +3 @@" = Ok []
  /\ findChangesByHunkHeader "@@ -1 +,5 @@" = Ok []
  /\ ~ has_block "@@ -10,3 +12 @@".
Proof.
  assert (forall s, regexp.FindAllStringSubmatch s = [] -> ~ has_block s)
    as Hno by (intros s Hs Hb; by apply (has_block_FindAll s Hb)).
  refine (conj _ (conj _ (conj _ (conj _ (conj _ (conj _ _)))))).
  - apply (proj1 (proj2 findChangesByHunkHeader_no_block) "@@ -10,3 @@").
    reflexivity.
  - apply (proj2 (proj2 findChangesByHunkHeader_no_block)
             "@@ -10,3 " "12" " @@"); reflexivity.
  - apply (proj2 (proj2 findChangesByHunkHeader_no_block)
             "@@ -10 " "12" " @@"); reflexivity.
  - apply (proj2 (proj1 findChangesByHunkHeader_no_block "@@ -1 +12, @@")).
    apply Hno. reflexivity.
  - apply (proj2 (proj1 findChangesByHunkHeader_no_block "@@ +2 +3 @@")).
    apply Hno. reflexivity.
  - apply (proj2 (proj1 findChangesByHunkHeader_no_block "@@ -1 +,5 @@")).
    apply Hno. reflexivity.
  - apply (proj1 (proj1 findChangesByHunkHeader_no_block
                    "@@ -10,3 +12 @@")).
    reflexivity.
Defined.

(** C8: [findChangesByHunkHeader] returns an error exactly when a field
    captured by some match is refused by [strconv.ParseInt]; the error
    returned is that of [ParseInt], unchanged; and when it returns ranges,
    every field of every match was parsed and every match gave its range. *)
Theorem findChangesByHunkHeader_error hunkHeader :
  let matches := regexp.FindAllStringSubmatch hunkHeader in
  (is_Err (findChangesByHunkHeader hunkHeader) <->
   Exists (fun m => is_Err (strconv.ParseInt (fst m))
                    \/ is_Err (strconv.ParseInt (snd m))) matches)
  /\ (forall e,
         findChangesByHunkHeader hunkHeader = Err e ->
         exists m, In m matches
                   /\ (strconv.ParseInt (fst m) = Err e
                       \/ strconv.ParseInt (snd m) = Err e))
  /\ (forall ranges,
         findChangesByHunkHeader hunkHeader = Ok ranges ->
         Forall2
           (fun m r =>
              exists start amount,
                strconv.ParseInt (fst m) = Ok start
                /\ strconv.ParseInt (snd m) = Ok amount
                /\ r = (int start, int (int64 (start + amount))))
           matches ranges).
Proof.
  intros matches. unfold findChangesByHunkHeader. fold matches.
  assert (forall m r, range_of_match m = Ok r ->
            exists start amount,
              strconv.ParseInt (fst m) = Ok start
              /\ strconv.ParseInt (snd m) = Ok amount
              /\ r = (int start, int (int64 (start + amount)))) as Hok.
  { intros m r. unfold range_of_match, rbind.
    destruct (strconv.ParseInt (fst m)) as [s|]; [|done].
    destruct (strconv.ParseInt (snd m)) as [a|]; [|done].
    intros [= <-]. by exists s, a. }
  assert (forall m e, range_of_match m = Err e ->
            strconv.ParseInt (fst m) = Err e
            \/ strconv.ParseInt (snd m) = Err e) as Herr.
  { intros m e. unfold range_of_match, rbind.
    destruct (strconv.ParseInt (fst m)) as [s|]; [|intros [= ->]; by left].
    destruct (strconv.ParseInt (snd m)) as [a|]; [done|].
    intros [= ->]. by right. }
  split; [|split].
  - split.
    + destruct (ranges_of_matches matches []) as [rs|e] eqn:Hr;
        [intros []|].
      intros _. apply ranges_of_matches_Err in Hr as (m & Hin & Hm).
      apply Exists_exists. exists m. split; [by apply list_elem_of_In|].
      destruct (Herr m e Hm) as [-> | ->]; [by left|by right].
    + intros Hex. destruct (ranges_of_matches matches []) as [rs|e] eqn:Hr;
        [|exact I].
      apply ranges_of_matches_Ok in Hr as (rs' & Hall & _).
      apply Exists_exists in Hex as (m & Hin & Hm).
      apply list_elem_of_In in Hin.
      assert (exists r, range_of_match m = Ok r) as [r Hr].
      { clear Hm. induction Hall as [|m' r' ms rs'' Hm' _ IH]; [done|].
        destruct Hin as [<-|Hin]; [by exists r'|by apply IH]. }
      destruct (Hok m r Hr) as (s & a & Hs & Ha & _).
      rewrite Hs, Ha in Hm. by destruct Hm.
  - intros e Hr. apply ranges_of_matches_Err in Hr as (m & Hin & Hm).
    exists m. split; [done|by apply Herr].
  - intros ranges Hr. apply ranges_of_matches_Ok in Hr as (rs' & Hall & ->).
    simpl. induction Hall; constructor; auto.
Qed.

Lemma findChangesByHunkHeader_error_witness :
  exists m,
    In m (regexp.FindAllStringSubmatch "@@ -1,1 +9223372036854775808,1 @@")
    /\ (strconv.ParseInt (fst m)
        = Err (ErrRange "ParseInt" "9223372036854775808")
        \/ strconv.ParseInt (snd m)
           = Err (ErrRange "ParseInt" "9223372036854775808")).
Proof.
  apply (proj1 (proj2 (findChangesByHunkHeader_error
                         "@@ -1,1 +9223372036854775808,1 @@"))).
  reflexivity.
Defined.

(** The error of C8 can be reached: a run of digits beyond [maxInt64]. *)
Example findChangesByHunkHeader_error_reached :
  findChangesByHunkHeader "@@ -1,1 +9223372036854775808,1 @@"
  = Err (ErrRange "ParseInt" "9223372036854775808").
Proof. reflexivity. Qed.




(** ** The selection loop *)

Lemma printed_app tr1 tr2 : printed (tr1 ++ tr2) = printed tr1 ++ printed tr2.
Proof. unfold printed. apply omap_app. Qed.

Lemma printed_repeat issue n :
  printed (repeat (EvPrint issue) n) = repeat issue n.
Proof. induction n as [|n IH]; [done|]. simpl. by rewrite <- IH. Qed.

Lemma inner_loop_run issue changes tr :
  forM_ (fun change =>
           if covers issue change then printIssue issue else ret tt)
    changes tr
  = (tr ++ repeat (EvPrint issue)
             (length (List.filter (covers issue) changes)), Ok tt).
Proof.
  revert tr. induction changes as [|ch changes IH]; intros tr.
  - simpl. unfold ret. by rewrite app_nil_r.
  - cbn [forM_ List.filter]. unfold bind.
    destruct (covers issue ch).
    + unfold printIssue, emit. rewrite IH. simpl.
      by rewrite <- app_assoc.
    + unfold ret. by rewrite IH.
Qed.

(** The loop never stops with an error, and appends one [EvPrint] for each
    pair of a finding and a range of its file that contains its line, the
    findings in input order. *)
Lemma select_loop_run issues idx tr :
  select_loop issues idx tr
  = (tr ++ flat_map (fun issue => repeat (EvPrint issue) (hits issue idx))
             issues, Ok tt).
Proof.
  revert tr. induction issues as [|issue issues IH]; intros tr.
  - simpl. unfold ret. by rewrite app_nil_r.
  - unfold select_loop in *. cbn [forM_ flat_map]. unfold bind.
    unfold hits at 1, matching.
    destruct (idx !! FilePath issue) as [fc|].
    + rewrite inner_loop_run, IH. by rewrite <- app_assoc.
    + unfold ret. by rewrite IH.
Qed.

Lemma selected_flat_map issues idx :
  selected issues idx
  = flat_map (fun issue => repeat issue (hits issue idx)) issues.
Proof.
  unfold selected. rewrite select_loop_run. simpl.
  induction issues as [|issue issues IH]; [done|].
  cbn [flat_map]. by rewrite printed_app, printed_repeat, IH.
Qed.

Lemma selected_app l1 l2 idx :
  selected (l1 ++ l2) idx = selected l1 idx ++ selected l2 idx.
Proof. rewrite !selected_flat_map. apply flat_map_app. Qed.

Lemma covers_spec issue change :
  covers issue change = true <->
  Start change <= Line (Pos issue) <= End change.
Proof.
  unfold covers. rewrite andb_true_iff, !Z.leb_le. tauto.
Qed.

Lemma hits_pos issue idx :
  (0 < hits issue idx)%nat <->
  exists fc, idx !! FilePath issue = Some fc
             /\ exists change, In change (changes_of fc)
                               /\ Start change <= Line (Pos issue)
                                  <= End change.
Proof.
  unfold hits, matching. destruct (idx !! FilePath issue) as [fc|].
  - split.
    + intros Hlen. exists fc. split; [done|].
      destruct (List.filter (covers issue) (changes_of fc)) as [|ch l] eqn:Hf;
        [simpl in Hlen; lia|].
      assert (In ch (List.filter (covers issue) (changes_of fc))) as Hin
        by (rewrite Hf; by left).
      apply filter_In in Hin as [Hin Hc]. exists ch.
      split; [done|by apply covers_spec].
    + intros (fc' & [= <-] & ch & Hin & Hc).
      assert (In ch (List.filter (covers issue) (changes_of fc))) as Hin'
        by (apply filter_In; split; [done|by apply covers_spec]).
      destruct (List.filter (covers issue) (changes_of fc));
        [done|simpl; lia].
  - split; [simpl; lia|]. by intros (fc & [=] & _).
Qed.

Lemma in_selected issue issues idx :
  In issue (selected issues idx) <->
  In issue issues /\ (0 < hits issue idx)%nat.
Proof.
  rewrite selected_flat_map, in_flat_map. split.
  - intros (i & Hin & Hrep). apply repeat_spec in Hrep as Heq. subst i.
    split; [done|]. destruct (hits issue idx); [done|lia].
  - intros [Hin Hpos]. exists issue. split; [done|].
    destruct (hits issue idx) as [|n]; [lia|]. by left.
Qed.

(** C1, as the code has it: a finding is emitted by the selection loop iff
    it is among the findings, its file path is a key of the index and some
    range of that file has [Start <= Line <= End]. For a range with
    [Start <= End] the findings on its first and on its last line are
    emitted (a range with [End < Start] contains no line, its own bounds
    included); a finding on the line after the end of every range of its
    file is not. *)
Theorem select_loop_selects :
  (forall issues idx issue,
      In issue (selected issues idx) <->
      In issue issues
      /\ exists fc, idx !! FilePath issue = Some fc
                    /\ exists change, In change (changes_of fc)
                                      /\ Start change <= Line (Pos issue)
                                         <= End change)
  /\ (forall issues idx issue fc change,
         In issue issues ->
         idx !! FilePath issue = Some fc ->
         In change (changes_of fc) ->
         Start change <= End change ->
         Line (Pos issue) = Start change \/ Line (Pos issue) = End change ->
         In issue (selected issues idx))
  /\ (forall issues idx issue fc,
         idx !! FilePath issue = Some fc ->
         (forall change, In change (changes_of fc) ->
                         Line (Pos issue) = End change + 1) ->
         ~ In issue (selected issues idx)).
Proof.
  split; [|split].
  - intros issues idx issue. by rewrite in_selected, hits_pos.
  - intros issues idx issue fc change Hin Hfc Hch Hwf Hline.
    apply in_selected. split; [done|]. apply hits_pos.
    exists fc. split; [done|]. exists change. split; [done|lia].
  - intros issues idx issue fc Hfc Hall Hsel.
    apply in_selected in Hsel as [_ Hpos].
    apply hits_pos in Hpos as (fc' & Hfc' & ch & Hch & Hcov).
    assert (fc' = fc) as -> by congruence.
    specialize (Hall ch Hch). lia.
Qed.

(** C5: the loop emits no finding whose file path is not a key of the
    index; it never stops with an error; and a finding of a file that is
    not in the index can be taken out of the input without changing what
    is emitted. *)
Theorem select_loop_untracked :
  (forall issues idx issue,
      In issue (selected issues idx) -> is_Some (idx !! FilePath issue))
  /\ (forall issues idx tr, snd (select_loop issues idx tr) = Ok tt)
  /\ (forall l1 l2 idx issue,
         idx !! FilePath issue = None ->
         selected (l1 ++ issue :: l2) idx = selected (l1 ++ l2) idx).
Proof.
  split; [|split].
  - intros issues idx issue Hsel. apply in_selected in Hsel as [_ Hpos].
    apply hits_pos in Hpos as (fc & Hfc & _). by exists fc.
  - intros issues idx tr. by rewrite select_loop_run.
  - intros l1 l2 idx issue Hnone. rewrite !selected_app. f_equal.
    change (issue :: l2) with ([issue] ++ l2). rewrite selected_app.
    rewrite (selected_flat_map [issue]). simpl.
    unfold hits, matching. by rewrite Hnone.
Qed.

Lemma count_occ_repeat (x y : Issue) n :
  count_occ Issue_eq_dec (repeat x n) y = if decide (x = y) then n else 0%nat.
Proof.
  induction n as [|n IH]; simpl.
  - by destruct (decide (x = y)).
  - rewrite IH. destruct (Issue_eq_dec x y), (decide (x = y)); done.
Qed.

Lemma count_occ_selected issues idx issue :
  count_occ Issue_eq_dec (selected issues idx) issue
  = (count_occ Issue_eq_dec issues issue * hits issue idx)%nat.
Proof.
  rewrite selected_flat_map.
  induction issues as [|i issues IH]; [done|].
  cbn [flat_map]. rewrite count_occ_app, IH, count_occ_repeat.
  simpl. destruct (Issue_eq_dec i issue) as [->|Hne].
  - rewrite decide_True by done. lia.
  - rewrite decide_False by done. lia.
Qed.

Lemma covers_count issue changes :
  length (List.filter (covers issue) changes)
  = length (ranges_containing (Line (Pos issue)) changes).
Proof.
  unfold ranges_containing.
  induction changes as [|ch changes IH]; [done|]. cbn [List.filter].
  destruct (covers issue ch) eqn:Hc.
  - rewrite filter_cons_True by (by apply covers_spec).
    simpl. by rewrite IH.
  - rewrite filter_cons_False; [done|].
    intros H. apply covers_spec in H. congruence.
Qed.

(** C10: a finding whose file is in the index and whose line [L] lies
    inside [k >= 1] ranges of that file (the ranges [{s, e}] of its range
    list with [s <= L <= e], counted with their repetitions) is emitted
    exactly [k] times each time the loop meets it: the loop over that one
    finding appends [k] prints of it, and in the output of the loop over
    any list it occurs [k] times as often as in the input. *)
Theorem select_loop_emits_per_range issues idx issue fc k :
  idx !! FilePath issue = Some fc ->
  k = length
        (filter (fun change =>
                   Start change <= Line (Pos issue) <= End change)
           (changes_of fc)) ->
  (1 <= k)%nat ->
  (forall tr,
      select_loop [issue] idx tr = (tr ++ repeat (EvPrint issue) k, Ok tt))
  /\ count_occ Issue_eq_dec (selected issues idx) issue
     = (count_occ Issue_eq_dec issues issue * k)%nat.
Proof.
  intros Hfc Hk _.
  assert (hits issue idx = k) as Hhits.
  { unfold hits, matching. rewrite Hfc, covers_count. by subst k. }
  split.
  - intros tr. rewrite select_loop_run. simpl.
    by rewrite Hhits, app_nil_r.
  - by rewrite count_occ_selected, Hhits.
Qed.

Lemma flat_map_repeat_sublist {A} (h : A -> nat) (l : list A) :
  (forall x, In x l -> (h x <= 1)%nat) ->
  sublist (flat_map (fun x => repeat x (h x)) l) l.
Proof.
  induction l as [|a l IH]; intros Hle; [constructor|].
  cbn [flat_map].
  assert (sublist (flat_map (fun x => repeat x (h x)) l) l) as Hl
    by (apply IH; intros x Hx; apply Hle; by right).
  pose proof (Hle a ltac:(by left)) as Ha.
  destruct (h a) as [|[|n]]; simpl; [|by constructor|lia].
  by apply sublist_cons.
Qed.

Lemma flat_map_repeat_idem {A} (h : A -> nat) (l : list A) :
  (forall x, In x l -> (h x <= 1)%nat) ->
  flat_map (fun x => repeat x (h x)) (flat_map (fun x => repeat x (h x)) l)
  = flat_map (fun x => repeat x (h x)) l.
Proof.
  induction l as [|a l IH]; intros Hle; [done|].
  cbn [flat_map]. rewrite flat_map_app.
  rewrite IH by (intros x Hx; apply Hle; by right). f_equal.
  pose proof (Hle a ltac:(by left)) as Ha.
  destruct (h a) as [|[|n]] eqn:Hh; simpl; [done| |lia].
  by rewrite Hh.
Qed.

(** C4, as the code has it: when no finding has its line in more than one
    range of its file, the emitted findings are a subsequence of the input,
    in input order, and running the loop on its own output with the same
    index emits that output again. *)
Theorem select_loop_stable issues idx :
  (forall issue, In issue issues -> (hits issue idx <= 1)%nat) ->
  sublist (selected issues idx) issues
  /\ selected (selected issues idx) idx = selected issues idx.
Proof.
  intros Hle. rewrite !selected_flat_map. split.
  - by apply flat_map_repeat_sublist.
  - by apply flat_map_repeat_idem.
Qed.

(** ** The change-set builder *)

Lemma append_positions_map changes positions :
  append_positions changes positions = changes ++ map mk_changes positions.
Proof.
  unfold append_positions. revert changes.
  induction positions as [|p ps IH]; intros changes; simpl.
  - by rewrite app_nil_r.
  - rewrite IH. by rewrite <- app_assoc.
Qed.

Lemma headers_loop_run (ranges : string -> list (Z * Z)) hs changes tr :
  (forall h, In h hs -> findChangesByHunkHeader h = Ok (ranges h)) ->
  foldM add_hunk hs changes tr
  = (tr, Ok (changes ++ map mk_changes (flat_map ranges hs))).
Proof.
  revert changes. induction hs as [|h hs IH]; intros changes Hok.
  - simpl. unfold ret. by rewrite app_nil_r.
  - cbn [foldM flat_map]. unfold add_hunk at 1, bind, lift.
    rewrite (Hok h) by (by left). unfold ret at 1.
    rewrite IH by (intros h' Hh'; apply Hok; by right).
    by rewrite append_positions_map, map_app, app_assoc.
Qed.

Section Builder.

Variable w : World.
Variables pwd cmd : string.

Lemma add_file_run headers ranges file fileChanges tr :
  snd (findHunkHeadersOfFile w pwd cmd file tr) = Ok (headers file) ->
  (forall h, In h (headers file) ->
             findChangesByHunkHeader h = Ok (ranges h)) ->
  snd (add_file w pwd cmd fileChanges file tr)
  = Ok (fileChanges ++ change_sets headers ranges [file]).
Proof.
  intros Hh Hr. unfold add_file, bind.
  destruct (findHunkHeadersOfFile w pwd cmd file tr) as [tr1 r1].
  simpl in Hh. subst r1.
  rewrite (headers_loop_run ranges) by done.
  unfold change_sets. cbn [map List.filter]. unfold file_change_set.
  cbn [changes_of].
  destruct (map mk_changes (flat_map ranges (headers file)));
    simpl; [by rewrite app_nil_r|done].
Qed.

Lemma files_loop_run headers ranges files fileChanges tr :
  (forall f t, In f files ->
               snd (findHunkHeadersOfFile w pwd cmd f t)
               = Ok (headers f)) ->
  (forall f h, In f files -> In h (headers f) ->
               findChangesByHunkHeader h = Ok (ranges h)) ->
  snd (foldM (add_file w pwd cmd) files fileChanges tr)
  = Ok (fileChanges ++ change_sets headers ranges files).
Proof.
  revert fileChanges tr.
  induction files as [|f files IH]; intros fileChanges tr Hh Hr.
  - simpl. by rewrite app_nil_r.
  - cbn [foldM]. unfold bind.
    pose proof (add_file_run headers ranges f fileChanges tr
                  (Hh f tr ltac:(by left))
                  (fun h Hin => Hr f h ltac:(by left) Hin)) as Hf.
    destruct (add_file w pwd cmd fileChanges f tr) as [tr1 r1].
    simpl in Hf. subst r1.
    rewrite IH.
    + rewrite <- app_assoc. do 2 f_equal.
      unfold change_sets. cbn [map List.filter].
      by destruct (changes_of (file_change_set headers ranges f)).
    + intros f' t Hin. apply Hh. by right.
    + intros f' h Hin. apply Hr. by right.
Qed.

End Builder.

Lemma change_sets_nonempty headers ranges files fc :
  In fc (change_sets headers ranges files) -> changes_of fc <> [].
Proof.
  unfold change_sets. intros H. apply filter_In in H as [_ H].
  by destruct (changes_of fc).
Qed.

Lemma change_sets_paths headers ranges files :
  sublist (map Path (change_sets headers ranges files)) files.
Proof.
  unfold change_sets. induction files as [|f files IH]; [constructor|].
  cbn [map List.filter].
  destruct (changes_of (file_change_set headers ranges f)).
  - by apply sublist_cons.
  - cbn [map]. by apply sublist_skip.
Qed.

(** C7: given the list of changed files, the hunk headers found for each
    of them and the ranges parsed from each header, [findChanges] returns
    the change sets of the files that have at least one range, in the order
    of the file list; the ranges of a file are those of its headers in
    header order, each header's in match order, none merged, sorted or
    removed. So no returned change set is empty, and the returned paths are
    a subsequence of the file list. *)
Theorem findChanges_change_sets w pwd cmd tr tr1 files headers ranges :
  listChangedFiles w pwd cmd tr = (tr1, Ok files) ->
  (forall f t, In f files ->
               snd (findHunkHeadersOfFile w pwd cmd f t) = Ok (headers f)) ->
  (forall f h, In f files -> In h (headers f) ->
               findChangesByHunkHeader h = Ok (ranges h)) ->
  snd (findChanges w pwd cmd tr) = Ok (change_sets headers ranges files)
  /\ (forall fc, In fc (change_sets headers ranges files) ->
                 changes_of fc <> []
                 /\ In (Path fc) files
                 /\ changes_of fc
                    = map mk_changes (flat_map ranges (headers (Path fc))))
  /\ sublist (map Path (change_sets headers ranges files)) files.
Proof.
  intros Hfiles Hh Hr. split; [|split].
  - unfold findChanges. unfold bind at 1. rewrite Hfiles.
    by rewrite (files_loop_run w pwd cmd headers ranges).
  - intros fc Hin. split; [by eapply change_sets_nonempty|].
    unfold change_sets in Hin. apply filter_In in Hin as [Hin _].
    apply in_map_iff in Hin as (f & <- & Hf). done.
  - apply change_sets_paths.
Qed.

(** *** A field that cannot be parsed stops the builder and the run *)

Lemma foldM_app_run {A S} (body : S -> A -> M S) xs ys s tr :
  foldM body (xs ++ ys) s tr
  = bind (foldM body xs s) (fun s' => foldM body ys s') tr.
Proof.
  revert s tr. induction xs as [|x xs IH]; intros s tr.
  - reflexivity.
  - cbn [foldM app]. unfold bind.
    destruct (body s x tr) as [tr' [s'|e]]; [|done].
    rewrite IH. reflexivity.
Qed.

Lemma headers_loop_error (ranges : string -> list (Z * Z))
    hs1 h hs2 changes tr e :
  (forall h', In h' hs1 -> findChangesByHunkHeader h' = Ok (ranges h')) ->
  findChangesByHunkHeader h = Err e ->
  foldM add_hunk (hs1 ++ h :: hs2) changes tr = (tr, Err e).
Proof.
  intros Hok Herr. rewrite foldM_app_run. unfold bind at 1.
  rewrite (headers_loop_run ranges) by done.
  cbn [foldM]. unfold bind, add_hunk at 1, lift. by rewrite Herr.
Qed.

Section Surfacing.

Variable w : World.
Variables pwd cmd : string.
Variable headers : string -> list string.
Variable ranges : string -> list (Z * Z).

(** The file [file], met after the files [before], has the header [h],
    met after the headers [hs1], with a field [ParseInt] refuses. *)
Variables (before after : list string) (file : string).
Variables (hs1 hs2 : list string) (h : string) (e : error).

Hypothesis before_headers :
  forall f t, In f before ->
              snd (findHunkHeadersOfFile w pwd cmd f t) = Ok (headers f).
Hypothesis before_ranges :
  forall f h', In f before -> In h' (headers f) ->
               findChangesByHunkHeader h' = Ok (ranges h').
Hypothesis file_headers :
  forall t, snd (findHunkHeadersOfFile w pwd cmd file t)
            = Ok (hs1 ++ h :: hs2).
Hypothesis hs1_ranges :
  forall h', In h' hs1 -> findChangesByHunkHeader h' = Ok (ranges h').
Hypothesis h_error : findChangesByHunkHeader h = Err e.

Lemma add_file_error fileChanges tr :
  snd (add_file w pwd cmd fileChanges file tr) = Err e.
Proof.
  unfold add_file, bind. pose proof (file_headers tr) as Hh.
  destruct (findHunkHeadersOfFile w pwd cmd file tr) as [tr1 r1].
  simpl in Hh. subst r1.
  by rewrite (headers_loop_error ranges hs1 h hs2 [] tr1 e hs1_ranges h_error).
Qed.

Lemma files_loop_error fileChanges tr :
  snd (foldM (add_file w pwd cmd) (before ++ file :: after) fileChanges tr)
  = Err e.
Proof.
  rewrite foldM_app_run. unfold bind at 1.
  pose proof (files_loop_run w pwd cmd headers ranges before fileChanges tr
                before_headers before_ranges) as Hb.
  destruct (foldM (add_file w pwd cmd) before fileChanges tr) as [tr1 r1].
  simpl in Hb. subst r1. cbn [foldM]. unfold bind.
  pose proof (add_file_error (fileChanges
                                ++ change_sets headers ranges before) tr1)
    as Hf.
  destruct (add_file w pwd cmd _ file tr1) as [tr2 r2].
  simpl in Hf. by subst r2.
Qed.

(** [findChanges] returns the error of the parser to its caller. *)
Lemma findChanges_parse_error tr tr1 :
  listChangedFiles w pwd cmd tr = (tr1, Ok (before ++ file :: after)) ->
  snd (findChanges w pwd cmd tr) = Err e.
Proof.
  intros Hfiles. unfold findChanges. unfold bind at 1. rewrite Hfiles.
  apply files_loop_error.
Qed.

End Surfacing.

(** ** The run as a whole *)

Lemma extending_ret {A} (a : A) : extending (ret a).
Proof. intros tr. exists []. simpl. by rewrite app_nil_r. Qed.

Lemma extending_lift {A} (r : result A) : extending (lift r).
Proof. intros tr. exists []. simpl. by rewrite app_nil_r. Qed.

Lemma extending_emit ev : extending (emit ev).
Proof. intros tr. by exists [ev]. Qed.

Lemma extending_bind {A B} (m : M A) (k : A -> M B) :
  extending m -> (forall a, extending (k a)) -> extending (bind m k).
Proof.
  intros Hm Hk tr. unfold bind. destruct (Hm tr) as [ext1 H1].
  destruct (m tr) as [tr' [a|e]]; simpl in H1; subst tr'.
  - destruct (Hk a (tr ++ ext1)) as [ext2 H2].
    exists (ext1 ++ ext2). by rewrite H2, app_assoc.
  - by exists ext1.
Qed.

Lemma extending_foldM {A S} (body : S -> A -> M S) xs s :
  (forall s x, extending (body s x)) -> extending (foldM body xs s).
Proof.
  intros Hbody. revert s. induction xs as [|x xs IH]; intros s.
  - apply extending_ret.
  - cbn [foldM]. apply extending_bind; [apply Hbody|apply IH].
Qed.

Lemma extending_findChanges w pwd cmd : extending (findChanges w pwd cmd).
Proof.
  unfold findChanges, listChangedFiles.
  repeat first
    [ apply extending_bind | apply extending_emit | apply extending_lift
    | apply extending_ret | intros ? ].
  apply extending_foldM. intros fileChanges file.
  unfold add_file, findHunkHeadersOfFile.
  repeat first
    [ apply extending_bind | apply extending_emit | apply extending_lift
    | apply extending_ret | intros ? ].
  - apply extending_foldM. intros changes h. unfold add_hunk.
    apply extending_bind; [apply extending_lift|].
    intros ?. apply extending_ret.
  - destruct (_ =? _)%nat; apply extending_ret.
Qed.

(** C9: whatever the invocation of the lint runner returns, [main] goes on:
    the step after the invocation is the reading of the JSON file, and the
    whole run (its trace and its end) is the same for every exit status of
    the lint runner. *)
Theorem main_ignores_lint_status w args tr :
  (exists command rest,
      fst (main w args tr)
      = tr ++ EvRun command :: EvReadJSON (arg_JsonFile args) :: rest)
  /\ (forall status,
         main (with_lint_status status w) args tr = main w args tr).
Proof.
  split.
  - unfold main, Execute, FindJSONIssues. cbn [outputFile SetInspectDes
      SetOutputJSON SetPwd NewGolangCILint].
    unfold bind at 1, bind at 1, emit at 1, ret at 1.
    unfold bind at 1, bind at 1, emit at 1, lift at 1.
    eexists.
    destruct (read_json w (arg_JsonFile args)) as [issues|e].
    + unfold bind.
      match goal with
      | |- context [findChanges w ?p ?c ?t] =>
          destruct (extending_findChanges w p c t) as [ext Hext];
          destruct (findChanges w p c t) as [tr' [changes|e]];
          simpl in Hext; subst tr'
      end.
      * rewrite select_loop_run. simpl. eexists.
        rewrite <- !app_assoc. simpl. reflexivity.
      * simpl. exists ext. rewrite <- !app_assoc. reflexivity.
    + simpl. exists []. rewrite <- app_assoc. reflexivity.
  - intros status. reflexivity.
Qed.

Lemma silent_ret {A} (a : A) : silent (ret a).
Proof. by intros tr. Qed.

Lemma silent_lift {A} (r : result A) : silent (lift r).
Proof. by intros tr. Qed.

Lemma silent_emit ev :
  match ev with EvPrint _ => False | _ => True end -> silent (emit ev).
Proof.
  intros Hev tr. unfold emit. simpl. rewrite printed_app.
  destruct ev; try done; simpl; by rewrite app_nil_r.
Qed.

Lemma silent_bind {A B} (m : M A) (k : A -> M B) :
  silent m -> (forall a, silent (k a)) -> silent (bind m k).
Proof.
  intros Hm Hk tr. unfold bind. specialize (Hm tr).
  destruct (m tr) as [tr' [a|e]]; simpl in Hm; [|done].
  by rewrite Hk.
Qed.

Lemma silent_foldM {A S} (body : S -> A -> M S) xs s :
  (forall s x, silent (body s x)) -> silent (foldM body xs s).
Proof.
  intros Hbody. revert s. induction xs as [|x xs IH]; intros s.
  - apply silent_ret.
  - cbn [foldM]. apply silent_bind; [apply Hbody|apply IH].
Qed.

Lemma silent_findChanges w pwd cmd : silent (findChanges w pwd cmd).
Proof.
  unfold findChanges, listChangedFiles.
  repeat first
    [ apply silent_bind | apply silent_emit; exact I | apply silent_lift
    | apply silent_ret | intros ? ].
  apply silent_foldM. intros fileChanges file.
  unfold add_file, findHunkHeadersOfFile.
  repeat first
    [ apply silent_bind | apply silent_emit; exact I | apply silent_lift
    | apply silent_ret | intros ? ].
  - apply silent_foldM. intros changes h. unfold add_hunk.
    apply silent_bind; [apply silent_lift|].
    intros ?. apply silent_ret.
  - destruct (_ =? _)%nat; apply silent_ret.
Qed.

(** When the JSON file is read and the change set is built, what [main]
    prints is what the selection loop selects from the decoded findings
    with the index of the change set. *)
Lemma main_prints_selected w args issues changes tr' :
  read_json w (arg_JsonFile args) = Ok issues ->
  (forall t, exists t',
      findChanges w (arg_Pwd args) (arg_Cmd args) t = (t', Ok changes)) ->
  main w args [] = (tr', Ok tt) ->
  printed tr' = selected issues (getChangesByFileName changes).
Proof.
  intros Hjson Hfc. unfold main, Execute, FindJSONIssues.
  cbn [outputFile SetInspectDes SetOutputJSON SetPwd NewGolangCILint].
  unfold bind at 1, bind at 1, emit at 1, ret at 1.
  unfold bind at 1, bind at 1, emit at 1, lift at 1.
  rewrite Hjson. unfold bind.
  match goal with
  | |- context [findChanges w ?p ?c ?t] =>
      destruct (Hfc t) as [t' Ht];
      pose proof (silent_findChanges w p c t) as Hs;
      rewrite Ht in Hs |- *; simpl in Hs
  end.
  rewrite select_loop_run. intros [= <-].
  rewrite printed_app, Hs. unfold selected. rewrite select_loop_run.
  simpl. done.
Qed.

(** [main] ends with the error of the parser ([log.Panicln]). *)
Lemma main_parse_error w args e tr :
  (exists issues, read_json w (arg_JsonFile args) = Ok issues) ->
  (forall t, snd (findChanges w (arg_Pwd args) (arg_Cmd args) t) = Err e) ->
  snd (main w args tr) = Err e.
Proof.
  intros [issues Hjson] Hfc. unfold main, Execute, FindJSONIssues.
  cbn [outputFile SetInspectDes SetOutputJSON SetPwd NewGolangCILint].
  unfold bind at 1, bind at 1, emit at 1, ret at 1.
  unfold bind at 1, bind at 1, emit at 1, lift at 1.
  rewrite Hjson. unfold bind.
  match goal with
  | |- context [findChanges w ?p ?c ?t] =>
      pose proof (Hfc t) as Ht;
      destruct (findChanges w p c t) as [tr' r];
      simpl in Ht; by subst r
  end.
Qed.

(** ** Sample runs *)

Example selected_scenario :
  selected [issue_at "a.go" 12; issue_at "a.go" 99; issue_at "b.go" 5]
    index_one
  = [issue_at "a.go" 12].
Proof. vm_compute. reflexivity. Qed.

Example sample_changes :
  snd (findChanges sample_world "." "git diff -U0" [])
  = Ok [{| changes_of := [range 1 4; range 4 4]; Path := "a.go" |}].
Proof. vm_compute. reflexivity. Qed.

Example sample_main :
  main sample_world sample_args []
  = ([EvRun "cd .; /home/shane/go/bin/golangci-lint run --out-format json:/tmp/golang_ci_lint.json ./...";
      EvReadJSON "/tmp/golang_ci_lint.json";
      EvOutput " cd .; git diff -U0 --no-commit-id --name-only ";
      EvOutput "cd .; git diff -U0 -- a.go";
      EvOutput "cd .; git diff -U0 -- b.go";
      EvOutput "cd .; git diff -U0 -- ";
      EvPrint (issue_at "a.go" 4); EvPrint (issue_at "a.go" 4)], Ok tt).
Proof. vm_compute. reflexivity. Qed.

Lemma select_loop_selects_witness :
  let issues := [issue_at "a.go" 1; issue_at "a.go" 2; issue_at "a.go" 3] in
  In (issue_at "a.go" 1) (selected issues index_first_line)
  /\ In (issue_at "a.go" 2) (selected issues index_first_line)
  /\ ~ In (issue_at "a.go" 3) (selected issues index_first_line).
Proof.
  intros issues. split; [|split].
  - apply (proj1 (proj2 select_loop_selects) issues index_first_line
             (issue_at "a.go" 1)
             {| changes_of := [range 1 2]; Path := "a.go" |} (range 1 2)).
    + simpl. auto.
    + vm_compute. reflexivity.
    + simpl. auto.
    + simpl. lia.
    + left. reflexivity.
  - apply (proj1 (proj2 select_loop_selects) issues index_first_line
             (issue_at "a.go" 2)
             {| changes_of := [range 1 2]; Path := "a.go" |} (range 1 2)).
    + simpl. auto.
    + vm_compute. reflexivity.
    + simpl. auto.
    + simpl. lia.
    + right. reflexivity.
  - apply (proj2 (proj2 select_loop_selects) issues index_first_line
             (issue_at "a.go" 3)
             {| changes_of := [range 1 2]; Path := "a.go" |}).
    + vm_compute. reflexivity.
    + intros change [<-|[]]. reflexivity.
Defined.

(** C1, as the claim states it, fails on a range whose end lies below its
    start, such as the one the parser returns for
    [+9223372036854775807,1]: the finding on the line [Start] of that range
    is not emitted. *)
Lemma select_loop_selects_counterexample :
  findChangesByHunkHeader "@@ -1,1 +9223372036854775807,1 @@"
  = Ok [(9223372036854775807, -9223372036854775808)]
  /\ selected [issue_at "a.go" 9223372036854775807]
       (getChangesByFileName
          [{| changes_of :=
                [range 9223372036854775807 (-9223372036854775808)];
              Path := "a.go" |}])
     = []
  /\ ~ (forall issues idx issue fc change,
           In issue issues ->
           idx !! FilePath issue = Some fc ->
           In change (changes_of fc) ->
           Line (Pos issue) = Start change
           \/ Line (Pos issue) = End change ->
           In issue (selected issues idx)).
Proof.
  split; [reflexivity|]. split; [vm_compute; reflexivity|].
  intros H.
  specialize (H [issue_at "a.go" 9223372036854775807]
                (getChangesByFileName
                   [{| changes_of :=
                         [range 9223372036854775807 (-9223372036854775808)];
                       Path := "a.go" |}])
                (issue_at "a.go" 9223372036854775807)
                {| changes_of :=
                     [range 9223372036854775807 (-9223372036854775808)];
                   Path := "a.go" |}
                (range 9223372036854775807 (-9223372036854775808))).
  assert (In (issue_at "a.go" 9223372036854775807)
            (selected [issue_at "a.go" 9223372036854775807]
               (getChangesByFileName
                  [{| changes_of :=
                        [range 9223372036854775807 (-9223372036854775808)];
                      Path := "a.go" |}]))) as Hin.
  { apply H.
    - by left.
    - vm_compute. reflexivity.
    - by left.
    - by left. }
  vm_compute in Hin. exact Hin.
Qed.

Lemma select_loop_untracked_witness :
  is_Some (index_one !! "a.go")
  /\ selected [issue_at "a.go" 12; issue_at "b.go" 5; issue_at "a.go" 99]
       index_one
     = selected [issue_at "a.go" 12; issue_at "a.go" 99] index_one.
Proof.
  split.
  - apply (proj1 select_loop_untracked
             [issue_at "a.go" 12; issue_at "a.go" 99; issue_at "b.go" 5]
             index_one (issue_at "a.go" 12)).
    vm_compute. left. reflexivity.
  - apply (proj2 (proj2 select_loop_untracked)
             [issue_at "a.go" 12] [issue_at "a.go" 99] index_one
             (issue_at "b.go" 5)).
    vm_compute. reflexivity.
Defined.

Lemma select_loop_emits_per_range_witness :
  let issues := [issue_at "a.go" 4; issue_at "a.go" 9; issue_at "a.go" 4] in
  (forall tr,
      select_loop [issue_at "a.go" 4] index_overlap tr
      = (tr ++ repeat (EvPrint (issue_at "a.go" 4)) 2, Ok tt))
  /\ count_occ Issue_eq_dec (selected issues index_overlap)
       (issue_at "a.go" 4)
     = (count_occ Issue_eq_dec issues (issue_at "a.go" 4) * 2)%nat.
Proof.
  intros issues.
  apply (select_loop_emits_per_range issues index_overlap
           (issue_at "a.go" 4)
           {| changes_of := [range 1 4; range 4 4]; Path := "a.go" |} 2%nat).
  - vm_compute. reflexivity.
  - vm_compute. reflexivity.
  - lia.
Defined.

Lemma select_loop_stable_witness :
  let issues := [issue_at "a.go" 12; issue_at "a.go" 99; issue_at "b.go" 5] in
  sublist (selected issues index_one) issues
  /\ selected (selected issues index_one) index_one
     = selected issues index_one.
Proof.
  intros issues. apply (select_loop_stable issues index_one).
  intros issue [<-|[<-|[<-|[]]]]; vm_compute; lia.
Defined.

(** C4, as the claim states it, fails: with two ranges that share line 4,
    the one finding on line 4 is emitted twice, which is no subsequence of
    the input, and the loop run on that output emits it four times. *)
Lemma select_loop_stable_counterexample :
  selected [issue_at "a.go" 4] index_overlap
  = [issue_at "a.go" 4; issue_at "a.go" 4]
  /\ selected (selected [issue_at "a.go" 4] index_overlap) index_overlap
     = [issue_at "a.go" 4; issue_at "a.go" 4;
        issue_at "a.go" 4; issue_at "a.go" 4]
  /\ ~ (forall issues idx,
           sublist (selected issues idx) issues
           /\ selected (selected issues idx) idx = selected issues idx).
Proof.
  split; [vm_compute; reflexivity|]. split; [vm_compute; reflexivity|].
  intros H. destruct (H [issue_at "a.go" 4] index_overlap) as [Hsub _].
  apply sublist_length in Hsub. vm_compute in Hsub. lia.
Qed.

Lemma findChanges_change_sets_witness :
  snd (findChanges sample_world "." "git diff -U0" [])
  = Ok [{| changes_of := [range 1 4; range 4 4]; Path := "a.go" |}].
Proof.
  exact (proj1
    (findChanges_change_sets sample_world "." "git diff -U0" []
       [EvOutput " cd .; git diff -U0 --no-commit-id --name-only "]
       ["a.go"; "b.go"; ""]
       (fun f => if String.eqb f "a.go"
                 then ["@@ -0,0 +1,3 @@"; "@@ -2,2 +4,0 @@"]
                 else if String.eqb f "b.go" then ["@@ -7 +7 @@"] else [])
       (fun h => if String.eqb h "@@ -0,0 +1,3 @@" then [(1, 4)]
                 else if String.eqb h "@@ -2,2 +4,0 @@" then [(4, 4)]
                 else [])
       eq_refl
       ltac:(intros f t [<-|[<-|[<-|[]]]]; reflexivity)
       ltac:(intros f h [<-|[<-|[<-|[]]]]; simpl;
             intros H; repeat destruct H as [<-|H]; try reflexivity;
             destruct H))).
Defined.

(** * Further properties of the code *)

(** ** getChangesByFileName *)

Lemma getChangesByFileName_snoc changes fc :
  getChangesByFileName (changes ++ [fc])
  = <[Path fc := fc]> (getChangesByFileName changes).
Proof. unfold getChangesByFileName. by rewrite fold_left_app. Qed.

Lemma index_lookup_sound changes p fc :
  getChangesByFileName changes !! p = Some fc ->
  Path fc = p /\ In fc changes.
Proof.
  induction changes as [|fc' changes IH] using rev_ind.
  - unfold getChangesByFileName. simpl. by rewrite lookup_empty.
  - rewrite getChangesByFileName_snoc. rewrite in_app_iff.
    destruct (decide (Path fc' = p)) as [<-|Hne].
    + rewrite lookup_insert_eq. intros [= <-]. split; [done|].
      right. by left.
    + rewrite lookup_insert_ne by done. intros H.
      destruct (IH H) as [? ?]. auto.
Qed.

Lemma index_lookup_none changes p :
  getChangesByFileName changes !! p = None <-> ~ In p (map Path changes).
Proof.
  induction changes as [|fc' changes IH] using rev_ind.
  - unfold getChangesByFileName. simpl. rewrite lookup_empty. tauto.
  - rewrite getChangesByFileName_snoc, map_app, in_app_iff. simpl.
    destruct (decide (Path fc' = p)) as [<-|Hne].
    + rewrite lookup_insert_eq. split; [done|]. intros H. tauto.
    + rewrite lookup_insert_ne by done. rewrite IH. tauto.
Qed.

Lemma index_last_wins l1 fc l2 :
  ~ In (Path fc) (map Path l2) ->
  getChangesByFileName (l1 ++ fc :: l2) !! Path fc = Some fc.
Proof.
  induction l2 as [|fc' l2 IH] using rev_ind; intros Hnot.
  - rewrite getChangesByFileName_snoc. apply lookup_insert_eq.
  - rewrite map_app, in_app_iff in Hnot. simpl in Hnot.
    change (l1 ++ fc :: l2 ++ [fc']) with (l1 ++ (fc :: l2) ++ [fc']).
    rewrite app_assoc, getChangesByFileName_snoc.
    rewrite lookup_insert_ne by tauto. apply IH. tauto.
Qed.

(** X1: the index is sound and complete for the paths of the change sets:
    whatever is found under a key is one of the change sets and carries
    that key as its path, and a key is absent exactly when no change set
    has that path. *)
Theorem getChangesByFileName_lookup changes p :
  (forall fc, getChangesByFileName changes !! p = Some fc ->
              Path fc = p /\ In fc changes)
  /\ (getChangesByFileName changes !! p = None <->
      ~ In p (map Path changes)).
Proof.
  split; [intros fc; apply index_lookup_sound|apply index_lookup_none].
Qed.

Lemma getChangesByFileName_lookup_witness :
  Path {| changes_of := [range 10 15]; Path := "a.go" |} = "a.go"
  /\ In {| changes_of := [range 10 15]; Path := "a.go" |}
       [{| changes_of := [range 10 15]; Path := "a.go" |}].
Proof.
  apply (proj1 (getChangesByFileName_lookup
                  [{| changes_of := [range 10 15]; Path := "a.go" |}]
                  "a.go")).
  vm_compute. reflexivity.
Defined.

(** X2: when a path occurs several times among the change sets, the index
    keeps the last of them (each insertion under a key that is present
    overwrites it). *)
Theorem getChangesByFileName_last_wins l1 fc l2 :
  ~ In (Path fc) (map Path l2) ->
  getChangesByFileName (l1 ++ fc :: l2) !! Path fc = Some fc.
Proof. apply index_last_wins. Qed.

Lemma getChangesByFileName_last_wins_witness :
  getChangesByFileName
    ([{| changes_of := [range 10 15]; Path := "a.go" |}]
       ++ {| changes_of := [range 20 25]; Path := "a.go" |}
       :: [{| changes_of := [range 1 2]; Path := "b.go" |}])
    !! "a.go"
  = Some {| changes_of := [range 20 25]; Path := "a.go" |}.
Proof.
  apply (getChangesByFileName_last_wins
           [{| changes_of := [range 10 15]; Path := "a.go" |}]
           {| changes_of := [range 20 25]; Path := "a.go" |}
           [{| changes_of := [range 1 2]; Path := "b.go" |}]).
  simpl. intros [H|[]]. discriminate H.
Defined.

(** X3: when the paths of the change sets are pairwise distinct, nothing is
    lost: every change set is found under its path, and the index has as
    many keys as there are change sets. *)
Theorem getChangesByFileName_distinct changes :
  NoDup (map Path changes) ->
  (forall fc, In fc changes ->
              getChangesByFileName changes !! Path fc = Some fc)
  /\ size (getChangesByFileName changes) = length changes.
Proof.
  intros Hnd. split.
  - intros fc Hin. apply in_split in Hin as (l1 & l2 & ->).
    apply index_last_wins.
    rewrite map_app in Hnd. simpl in Hnd.
    apply NoDup_app in Hnd as (_ & _ & Hnd).
    apply NoDup_cons in Hnd as [Hnot _].
    intros Hin. apply Hnot. by apply list_elem_of_In.
  - induction changes as [|fc changes IH] using rev_ind; [done|].
    rewrite getChangesByFileName_snoc, length_app. simpl.
    rewrite map_app in Hnd. apply NoDup_app in Hnd as (Hnd1 & Hdisj & _).
    rewrite map_size_insert_None.
    + rewrite IH by done. lia.
    + apply index_lookup_none. intros Hin.
      apply (Hdisj (Path fc)); [by apply list_elem_of_In|].
      simpl. by left.
Qed.

Lemma getChangesByFileName_distinct_witness :
  (forall fc,
      In fc [{| changes_of := [range 10 15]; Path := "a.go" |};
             {| changes_of := [range 1 2]; Path := "b.go" |}] ->
      getChangesByFileName
        [{| changes_of := [range 10 15]; Path := "a.go" |};
         {| changes_of := [range 1 2]; Path := "b.go" |}] !! Path fc
      = Some fc)
  /\ size (getChangesByFileName
             [{| changes_of := [range 10 15]; Path := "a.go" |};
              {| changes_of := [range 1 2]; Path := "b.go" |}])
     = 2%nat.
Proof.
  apply (getChangesByFileName_distinct
           [{| changes_of := [range 10 15]; Path := "a.go" |};
            {| changes_of := [range 1 2]; Path := "b.go" |}]).
  apply (bool_decide_unpack _). vm_compute. exact I.
Defined.

(** X4: with a repeated path, the selection uses the ranges of the last
    change set of that path only: a finding of that file is emitted iff one
    of those ranges contains its line, whatever the earlier change sets of
    the same path hold. *)
Theorem select_loop_last_entry issues l1 fc l2 issue :
  ~ In (Path fc) (map Path l2) ->
  FilePath issue = Path fc ->
  In issue (selected issues (getChangesByFileName (l1 ++ fc :: l2))) <->
  In issue issues
  /\ exists change, In change (changes_of fc)
                    /\ Start change <= Line (Pos issue) <= End change.
Proof.
  intros Hnot Hpath. rewrite in_selected, hits_pos, Hpath.
  rewrite (index_last_wins l1 fc l2 Hnot). split.
  - intros [Hin (fc' & [= <-] & H)]. done.
  - intros [Hin H]. split; [done|]. by exists fc.
Qed.

Lemma select_loop_last_entry_witness :
  ~ In (issue_at "a.go" 12)
      (selected [issue_at "a.go" 12; issue_at "a.go" 22]
         (getChangesByFileName
            ([{| changes_of := [range 10 15]; Path := "a.go" |}]
               ++ {| changes_of := [range 20 25]; Path := "a.go" |}
               :: []))).
Proof.
  intros Hsel.
  apply (select_loop_last_entry
           [issue_at "a.go" 12; issue_at "a.go" 22]
           [{| changes_of := [range 10 15]; Path := "a.go" |}]
           {| changes_of := [range 20 25]; Path := "a.go" |} []
           (issue_at "a.go" 12)) in Hsel.
  - destruct Hsel as [_ (change & [<-|[]] & Hs & _)]. simpl in Hs. lia.
  - simpl. tauto.
  - reflexivity.
Defined.

(** ** listChangedFiles *)

Lemma split_lines_cons c s :
  split_lines (String c s) =
    if Ascii.eqb c newline then EmptyString :: split_lines s
    else match split_lines s with
         | l :: ls' => String c l :: ls'
         | [] => [String c EmptyString]
         end.
Proof. reflexivity. Qed.

Lemma split_lines_not_nil s : split_lines s <> [].
Proof.
  induction s as [|c s IH]; [done|]. rewrite split_lines_cons.
  destruct (Ascii.eqb c newline); [done|].
  by destruct (split_lines s).
Qed.

Lemma lacks_cons_eq c c' s :
  lacks c (String c' s) = negb (Ascii.eqb c c') && lacks c s.
Proof. reflexivity. Qed.

Lemma join_lines_cons l l' ls :
  join_lines (l :: l' :: ls) = l +:+ String newline (join_lines (l' :: ls)).
Proof. reflexivity. Qed.

Lemma join_split s : join_lines (split_lines s) = s.
Proof.
  induction s as [|c s IH]; [done|]. rewrite split_lines_cons.
  pose proof (split_lines_not_nil s) as Hne.
  destruct (Ascii.eqb_spec c newline) as [->|Hc].
  - destruct (split_lines s) as [|l ls]; [done|].
    rewrite join_lines_cons, IH. by str_norm.
  - destruct (split_lines s) as [|l ls]; [done|].
    destruct ls as [|l' ls].
    + simpl in *. by rewrite IH.
    + rewrite join_lines_cons in *. str_norm. by rewrite IH.
Qed.

Lemma split_lines_lacks s :
  Forall (fun l => lacks newline l = true) (split_lines s).
Proof.
  induction s as [|c s IH]; [by repeat constructor|].
  rewrite split_lines_cons.
  destruct (Ascii.eqb_spec c newline) as [->|Hc].
  - by constructor.
  - pose proof (split_lines_not_nil s) as Hne.
    destruct (split_lines s) as [|l ls]; [done|].
    apply Forall_cons in IH as [Hl Hls].
    constructor; [|done]. rewrite lacks_cons_eq, Hl.
    destruct (Ascii.eqb_spec newline c) as [Heq|_]; [congruence|done].
Qed.

Lemma split_lines_line l s :
  lacks newline l = true ->
  split_lines (l +:+ String newline s) = l :: split_lines s.
Proof.
  induction l as [|c l IH]; intros Hl; str_norm.
  - by rewrite split_lines_cons, Ascii.eqb_refl.
  - rewrite lacks_cons_eq in Hl. apply andb_true_iff in Hl as [Hc Hl].
    apply negb_true_iff in Hc. rewrite Ascii.eqb_sym in Hc.
    by rewrite split_lines_cons, Hc, IH.
Qed.

Lemma split_lines_single l :
  lacks newline l = true -> split_lines l = [l].
Proof.
  induction l as [|c l IH]; intros Hl; [done|].
  rewrite lacks_cons_eq in Hl. apply andb_true_iff in Hl as [Hc Hl].
  apply negb_true_iff in Hc. rewrite Ascii.eqb_sym in Hc.
  by rewrite split_lines_cons, Hc, IH.
Qed.

Lemma split_join ls :
  ls <> [] -> Forall (fun l => lacks newline l = true) ls ->
  split_lines (join_lines ls) = ls.
Proof.
  induction ls as [|l ls IH]; intros Hne Hall; [done|].
  inversion Hall as [|? ? Hl Hls]; subst.
  destruct ls as [|l' ls].
  - by apply split_lines_single.
  - rewrite join_lines_cons, split_lines_line by done.
    by rewrite IH.
Qed.

(** X5: [strings.Split(s, "\n")] and [strings.Join(_, "\n")] are inverse
    to each other: the lines of a text, joined, give the text back; no
    line holds a newline and there is always at least one line; and a
    non-empty list of newline-free lines, joined and split, comes back. *)
Theorem split_lines_round_trip :
  (forall s,
      join_lines (split_lines s) = s
      /\ split_lines s <> []
      /\ Forall (fun l => lacks newline l = true) (split_lines s))
  /\ (forall ls,
         ls <> [] -> Forall (fun l => lacks newline l = true) ls ->
         split_lines (join_lines ls) = ls).
Proof.
  split.
  - intros s. split; [apply join_split|].
    split; [apply split_lines_not_nil|apply split_lines_lacks].
  - apply split_join.
Qed.

Lemma split_lines_round_trip_witness :
  split_lines (join_lines ["a.go"; "b.go"; ""]) = ["a.go"; "b.go"; ""].
Proof.
  apply (proj2 split_lines_round_trip ["a.go"; "b.go"; ""]).
  - discriminate.
  - repeat constructor.
Defined.

Lemma collect_files_spec lines files :
  exists kept rest,
    lines = kept ++ rest
    /\ collect_files lines files = files ++ kept
    /\ Forall (fun l => is_commit_line l = false) kept
    /\ match rest with
       | [] => True
       | l :: _ => is_commit_line l = true
       end.
Proof.
  revert files. induction lines as [|l lines IH]; intros files.
  - exists [], []. simpl. rewrite app_nil_r.
    split; [done|]. split; [done|]. split; [constructor|done].
  - cbn [collect_files]. fold (is_commit_line l).
    destruct (is_commit_line l) eqn:Hl.
    + exists [], (l :: lines). simpl. rewrite app_nil_r.
      split; [done|]. split; [done|]. split; [constructor|done].
    + destruct (IH (files ++ [l])) as (kept & rest & -> & Hc & Hk & Hr).
      exists (l :: kept), rest. rewrite Hc, <- app_assoc.
      repeat split; try done. by constructor.
Qed.

(** X6: when the listing command succeeds, [listChangedFiles] returns the
    lines of its output up to, and without, the first line that begins with
    ["commit "]: the returned files are a prefix of the lines, none of them
    begins with ["commit "], and the line after them, if there is one,
    does. When the command fails, its error is returned. In both cases the
    command is run exactly once. *)
Theorem listChangedFiles_files w pwd cmd tr :
  (forall output,
      sh_output w (list_command pwd cmd) = Ok output ->
      exists files rest,
        listChangedFiles w pwd cmd tr
        = (tr ++ [EvOutput (list_command pwd cmd)], Ok files)
        /\ split_lines output = files ++ rest
        /\ Forall (fun l => is_commit_line l = false) files
        /\ match rest with
           | [] => True
           | l :: _ => is_commit_line l = true
           end)
  /\ (forall e,
         sh_output w (list_command pwd cmd) = Err e ->
         listChangedFiles w pwd cmd tr
         = (tr ++ [EvOutput (list_command pwd cmd)], Err e)).
Proof.
  split.
  - intros output Hout.
    destruct (collect_files_spec (split_lines output) [])
      as (kept & rest & Hsplit & Hc & Hk & Hr).
    exists kept, rest. split; [|done].
    unfold listChangedFiles, bind, emit, lift, ret.
    fold (list_command pwd cmd). by rewrite Hout, Hc.
  - intros e Hout. unfold listChangedFiles, bind, emit, lift, ret.
    fold (list_command pwd cmd). by rewrite Hout.
Qed.

Lemma listChangedFiles_files_witness :
  exists files rest,
    listChangedFiles sample_world "." "git diff -U0" []
    = ([EvOutput (list_command "." "git diff -U0")], Ok files)
    /\ split_lines (lines ["a.go"; "b.go"]) = files ++ rest
    /\ Forall (fun l => is_commit_line l = false) files
    /\ match rest with
       | [] => True
       | l :: _ => is_commit_line l = true
       end.
Proof.
  apply (proj1 (listChangedFiles_files sample_world "." "git diff -U0" [])
           (lines ["a.go"; "b.go"])).
  reflexivity.
Defined.

Lemma split_lines_lines ls :
  Forall (fun l => lacks newline l = true) ls ->
  split_lines (lines ls) = ls ++ [EmptyString].
Proof.
  induction ls as [|l ls IH]; intros Hall; [done|].
  inversion Hall; subst. unfold lines in *. cbn [fold_right].
  rewrite split_lines_line by done. by rewrite IH.
Qed.

(** X7: an output of the listing command that ends in a newline (every
    path on a line of its own, none beginning with ["commit "]) gives the
    paths followed by one empty path: the text after the last newline. *)
Theorem listChangedFiles_trailing_newline w pwd cmd tr paths :
  sh_output w (list_command pwd cmd) = Ok (lines paths) ->
  Forall (fun l => lacks newline l = true) paths ->
  Forall (fun l => is_commit_line l = false) paths ->
  snd (listChangedFiles w pwd cmd tr) = Ok (paths ++ [EmptyString]).
Proof.
  intros Hout Hnl Hcommit.
  unfold listChangedFiles, bind, emit, lift, ret.
  fold (list_command pwd cmd). rewrite Hout. simpl. f_equal.
  rewrite split_lines_lines by done.
  destruct (collect_files_spec (paths ++ [EmptyString]) [])
    as (kept & rest & Hsplit & -> & Hk & Hr).
  simpl. destruct rest as [|l rest].
  - by rewrite app_nil_r in Hsplit.
  - exfalso.
    assert (In l (paths ++ [EmptyString])) as Hin
      by (rewrite Hsplit; apply in_app_iff; right; by left).
    apply in_app_iff in Hin as [Hin|[<-|[]]].
    + apply list_elem_of_In in Hin.
      rewrite Forall_forall in Hcommit. rewrite (Hcommit l Hin) in Hr.
      discriminate.
    + vm_compute in Hr. discriminate.
Qed.

Lemma listChangedFiles_trailing_newline_witness :
  snd (listChangedFiles sample_world "." "git diff -U0" [])
  = Ok (["a.go"; "b.go"] ++ [EmptyString]).
Proof.
  apply (listChangedFiles_trailing_newline sample_world "." "git diff -U0"
           [] ["a.go"; "b.go"]).
  - reflexivity.
  - repeat constructor.
  - repeat constructor.
Defined.

(** ** The pattern [(@@[ \-+\d,]+@@)] and findHunkHeadersOfFile *)

Module hunk_facts.
Import hunk.

Lemma class_prefix_spec s run r :
  class_prefix s = (run, r) ->
  s = run +:+ r /\ all_in_class run = true
  /\ not_starting in_class r = true.
Proof.
  revert run r. induction s as [|c s IH]; intros run r; simpl.
  - intros [= <- <-]. done.
  - destruct (in_class c) eqn:Hc.
    + destruct (class_prefix s) as [run' r'] eqn:Hp.
      intros [= <- <-]. destruct (IH _ _ eq_refl) as (-> & Hrun & Hr).
      str_norm. cbn [all_in_class]. by rewrite Hc, Hrun.
    + intros [= <- <-]. str_norm. cbn [all_in_class not_starting].
      by rewrite Hc.
Qed.

Lemma class_prefix_app run r :
  all_in_class run = true -> not_starting in_class r = true ->
  class_prefix (run +:+ r) = (run, r).
Proof.
  intros Hrun Hr. induction run as [|c run IH]; str_norm.
  - destruct r as [|c r]; [done|]. unfold not_starting in Hr.
    apply negb_true_iff in Hr. cbn [class_prefix]. by rewrite Hr.
  - cbn [all_in_class] in Hrun. apply andb_true_iff in Hrun as [Hc Hrun].
    cbn [class_prefix]. by rewrite Hc, IH.
Qed.

(** [match_here] with its byte tests spelled as comparisons. *)
Lemma hunk_match_here_unfold s :
  match_here s =
    match s with
    | String c (String c2 s1) =>
        if Ascii.eqb c "@" && Ascii.eqb c2 "@" then
          match class_prefix s1 with
          | (String c' run as body, String a (String b _)) =>
              if Ascii.eqb a "@" && Ascii.eqb b "@"
              then Some ("@@" +:+ body +:+ "@@",
                         (String.length body + 4)%nat)
              else None
          | _ => None
          end
        else None
    | _ => None
    end.
Proof.
  destruct s as [|c [|c2 s1]].
  - done.
  - destruct c as [[] [] [] [] [] [] [] []]; done.
  - destruct (Ascii.eqb_spec c "@") as [->|Hc];
      [|destruct c as [[] [] [] [] [] [] [] []]; done].
    destruct (Ascii.eqb_spec c2 "@") as [->|Hc2];
      [|destruct c2 as [[] [] [] [] [] [] [] []]; done].
    cbn [andb]. unfold match_here.
    destruct (class_prefix s1) as [[|c' run] [|a [|b r]]]; try done.
    + destruct a as [[] [] [] [] [] [] [] []]; done.
    + destruct (Ascii.eqb_spec a "@") as [->|Ha];
        [|destruct a as [[] [] [] [] [] [] [] []]; done].
      destruct (Ascii.eqb_spec b "@") as [->|Hb];
        [|destruct b as [[] [] [] [] [] [] [] []]; done].
      done.
Qed.

Lemma hunk_match_here_inv s m len :
  match_here s = Some (m, len) ->
  exists body r,
    m = "@@" +:+ body +:+ "@@" /\ body <> EmptyString
    /\ all_in_class body = true /\ s = m +:+ r
    /\ len = (String.length body + 4)%nat.
Proof.
  rewrite hunk_match_here_unfold. destruct s as [|c [|c2 s1]]; try done.
  destruct (Ascii.eqb_spec c "@") as [->|]; [|done].
  destruct (Ascii.eqb_spec c2 "@") as [->|]; [|done]. cbn [andb].
  destruct (class_prefix s1) as [body r1] eqn:Hp.
  destruct body as [|c' run]; [done|].
  destruct r1 as [|a [|b r]]; try done.
  destruct (Ascii.eqb_spec a "@") as [->|]; [|done].
  destruct (Ascii.eqb_spec b "@") as [->|]; [|done]. cbn [andb].
  intros [= <- <-]. apply class_prefix_spec in Hp as (-> & Hbody & _).
  exists (String c' run), r. repeat split; try done.
  str_assoc. done.
Qed.

Lemma match_here_header body post :
  body <> EmptyString -> all_in_class body = true ->
  match_here ("@@" +:+ body +:+ "@@" +:+ post)
  = Some ("@@" +:+ body +:+ "@@", (String.length body + 4)%nat).
Proof.
  intros Hne Hbody. rewrite hunk_match_here_unfold. str_norm.
  rewrite !Ascii.eqb_refl. cbn [andb].
  rewrite (class_prefix_app body (String "@" (String "@" post)) Hbody eq_refl).
  destruct body as [|c' run]; [done|].
  rewrite !Ascii.eqb_refl. done.
Qed.

Lemma match_here_not_at c s :
  Ascii.eqb c "@" = false -> match_here (String c s) = None.
Proof.
  intros H. rewrite hunk_match_here_unfold. destruct s; [done|]. by rewrite H.
Qed.

Lemma hunk_FindAll_from_skip pre s k :
  FindAll_from (String.length pre + k) (pre +:+ s) = FindAll_from k s.
Proof. induction pre as [|c pre IH]; str_simpl; done. Qed.

Lemma hunk_FindAll_from_lacks pre s :
  lacks "@" pre = true ->
  FindAll_from 0 (pre +:+ s) = FindAll_from 0 s.
Proof.
  induction pre as [|c pre IH]; intros H; str_norm; [done|].
  apply regexp_facts.lacks_cons in H as [Hc Hpre]. cbn [FindAll_from].
  rewrite (match_here_not_at c (pre +:+ s) Hc). auto.
Qed.

Lemma hunk_FindAll_lacks_nil s :
  lacks "@" s = true -> FindAllString s = [].
Proof.
  unfold FindAllString.
  induction s as [|c s IH]; intros H; [done|].
  apply regexp_facts.lacks_cons in H as [Hc Hs]. cbn [FindAll_from].
  rewrite (match_here_not_at c s Hc). auto.
Qed.

Lemma FindAll_from_here c s :
  FindAll_from 0 (String c s) =
    match match_here (String c s) with
    | Some (m, len) => m :: FindAll_from (len - 1) s
    | None => FindAll_from 0 s
    end.
Proof. reflexivity. Qed.

Lemma FindAll_header body post :
  body <> EmptyString -> all_in_class body = true ->
  FindAll_from 0 ("@@" +:+ body +:+ "@@" +:+ post)
  = ("@@" +:+ body +:+ "@@") :: FindAll_from 0 post.
Proof.
  intros Hne Hbody.
  pose proof (match_here_header body post Hne Hbody) as Hm.
  str_norm_all. rewrite FindAll_from_here, Hm. f_equal.
  replace (String "@" (body +:+ String "@" (String "@" post)))
    with ((String "@" (body +:+ "@@")) +:+ post)
    by (str_assoc; done).
  replace (String.length body + 4 - 1)%nat
    with (String.length (String "@" (body +:+ "@@")) + 0)%nat
    by (cbn [String.length]; rewrite append_length; simpl; lia).
  apply hunk_FindAll_from_skip.
Qed.

Lemma FindAll_from_shape k s m :
  In m (FindAll_from k s) ->
  exists body,
    m = "@@" +:+ body +:+ "@@" /\ body <> EmptyString
    /\ all_in_class body = true.
Proof.
  revert k. induction s as [|c s IH]; intros k; [done|].
  cbn [FindAll_from]. destruct k as [|k]; [|by apply IH].
  destruct (match_here (String c s)) as [[m' len]|] eqn:Hm; [|by apply IH].
  intros [<-|Hin]; [|by eapply IH].
  apply hunk_match_here_inv in Hm as (body & r & -> & Hne & Hbody & _).
  by exists body.
Qed.

End hunk_facts.

(** X8: every hunk header [findHunkHeadersOfFile] returns is [@@], a
    non-empty run of spaces, hyphens, plus signs, digits and commas, and
    [@@]; and when the diff command fails, its error is returned. *)
Theorem findHunkHeadersOfFile_headers w pwd cmd file tr :
  (forall headers header,
      snd (findHunkHeadersOfFile w pwd cmd file tr) = Ok headers ->
      In header headers ->
      exists body,
        header = "@@" +:+ body +:+ "@@" /\ body <> EmptyString
        /\ all_in_class body = true)
  /\ (forall e,
         sh_output w (diff_command pwd cmd file) = Err e ->
         findHunkHeadersOfFile w pwd cmd file tr
         = (tr ++ [EvOutput (diff_command pwd cmd file)], Err e)).
Proof.
  unfold findHunkHeadersOfFile, bind, emit, lift, ret.
  fold (diff_command pwd cmd file). split.
  - intros headers header.
    destruct (sh_output w (diff_command pwd cmd file)) as [out|e];
      [|done].
    simpl. intros [= <-]. apply hunk_facts.FindAll_from_shape.
  - intros e ->. done.
Qed.

Lemma findHunkHeadersOfFile_headers_witness :
  exists body,
    "@@ -2,2 +4,0 @@" = "@@" +:+ body +:+ "@@" /\ body <> EmptyString
    /\ all_in_class body = true.
Proof.
  apply (proj1 (findHunkHeadersOfFile_headers sample_world "."
                  "git diff -U0" "a.go" [])
           ["@@ -0,0 +1,3 @@"; "@@ -2,2 +4,0 @@"] "@@ -2,2 +4,0 @@").
  - reflexivity.
  - simpl. auto.
Defined.

Lemma parse_hunk_header a b c d :
  digit_run a -> digit_run b -> digit_run c -> digit_run d ->
  decimal c + decimal d <= maxInt64 ->
  findChangesByHunkHeader (hunk_header a b c d)
  = Ok [(decimal c, decimal c + decimal d)].
Proof.
  intros Ha Hb Hc Hd Hsum. unfold findChangesByHunkHeader.
  rewrite hunk_header_shape.
  rewrite findChanges_one_block;
    [|by apply hunk_header_pre|done|done|done|done].
  rewrite ranges_of_matches_cons, (range_of_match_digits c d); done.
Qed.

Lemma all_digits_in_class s :
  all_digits s = true -> all_in_class s = true.
Proof.
  induction s as [|ch s IH]; [done|]. cbn [all_digits all_in_class].
  intros H. apply andb_true_iff in H as [Hc Hs]. rewrite (IH Hs).
  unfold hunk.in_class. rewrite Hc. by rewrite !orb_true_r.
Qed.

Lemma all_in_class_app s1 s2 :
  all_in_class (s1 +:+ s2) = all_in_class s1 && all_in_class s2.
Proof.
  induction s1 as [|ch s1 IH]; str_norm; [done|].
  cbn [all_in_class]. by rewrite IH, andb_assoc.
Qed.

Lemma hunk_header_body a b c d :
  digit_run a -> digit_run b -> digit_run c -> digit_run d ->
  exists body,
    hunk_header a b c d = "@@" +:+ body +:+ "@@"
    /\ body <> EmptyString /\ all_in_class body = true.
Proof.
  intros [_ Ha] [_ Hb] [_ Hc] [_ Hd].
  exists (" -" +:+ a +:+ "," +:+ b +:+ " +" +:+ c +:+ "," +:+ d +:+ " ").
  split; [unfold hunk_header; by str_assoc|]. split; [done|].
  rewrite !all_in_class_app.
  by rewrite (all_digits_in_class a Ha), (all_digits_in_class b Hb),
    (all_digits_in_class c Hc), (all_digits_in_class d Hd).
Qed.

(** X9: a diff of a file that holds one hunk header [@@ -a,b +c,d @@] (no
    ['@'] elsewhere in the text, [c + d] within [int64]) makes [add_file],
    the body of the loop of [findChanges], append exactly the change set
    of that file with the one range [{c, c + d}]: the extraction of the
    header and its parsing fit together. *)
Theorem add_file_single_hunk w pwd cmd file fileChanges tr pre post a b c d :
  sh_output w (diff_command pwd cmd file)
  = Ok (pre +:+ hunk_header a b c d +:+ post) ->
  lacks "@" pre = true -> lacks "@" post = true ->
  digit_run a -> digit_run b -> digit_run c -> digit_run d ->
  decimal c + decimal d <= maxInt64 ->
  add_file w pwd cmd fileChanges file tr
  = (tr ++ [EvOutput (diff_command pwd cmd file)],
     Ok (fileChanges
           ++ [{| changes_of := [{| Start := decimal c;
                                    End := decimal c + decimal d |}];
                  Path := file |}])).
Proof.
  intros Hout Hpre Hpost Ha Hb Hc Hd Hsum.
  destruct (hunk_header_body a b c d Ha Hb Hc Hd)
    as (body & Hshape & Hne & Hbody).
  unfold add_file, findHunkHeadersOfFile. fold (diff_command pwd cmd file).
  unfold bind at 1, bind at 1, bind at 1, emit, lift. rewrite Hout.
  unfold ret at 1.
  assert (hunk.FindAllString (pre +:+ hunk_header a b c d +:+ post)
          = [hunk_header a b c d]) as ->.
  { unfold hunk.FindAllString.
    rewrite (hunk_facts.hunk_FindAll_from_lacks pre _ Hpre).
    rewrite Hshape.
    replace (("@@" +:+ body +:+ "@@") +:+ post)
      with ("@@" +:+ body +:+ "@@" +:+ post) by (by str_assoc).
    rewrite (hunk_facts.FindAll_header body post Hne Hbody). f_equal.
    apply (hunk_facts.hunk_FindAll_lacks_nil post Hpost). }
  unfold bind at 1.
  rewrite (headers_loop_run
             (fun _ => [(decimal c, decimal c + decimal d)])).
  - reflexivity.
  - intros h [<-|[]]. by apply parse_hunk_header.
Qed.

Lemma add_file_single_hunk_witness :
  add_file
    {| sh_run := fun _ => None;
       sh_output := fun _ =>
         Ok (lines ["diff --git a/x.go b/x.go"; "@@ -10,3 +12,5 @@";
                    "+x"]);
       read_json := fun _ => Ok [] |}
    "." "git diff" [] "x.go" []
  = ([EvOutput (diff_command "." "git diff" "x.go")],
     Ok [{| changes_of := [{| Start := 12; End := 17 |}];
            Path := "x.go" |}]).
Proof.
  apply (add_file_single_hunk _ "." "git diff" "x.go" [] []
           (lines ["diff --git a/x.go b/x.go"]) (lines [""; "+x"])
           "10" "3" "12" "5");
    try reflexivity; try (apply digit_runb_spec; reflexivity).
  vm_compute. discriminate.
Defined.

(** X10: the only error [findChangesByHunkHeader] can return is the range
    error of [strconv.ParseInt] on a captured run of digits whose value
    exceeds the largest [int64]; it never returns a syntax error. *)
Theorem findChangesByHunkHeader_error_kind hunkHeader e :
  findChangesByHunkHeader hunkHeader = Err e ->
  exists num,
    e = ErrRange "ParseInt" num /\ digit_run num
    /\ maxInt64 < decimal num.
Proof.
  unfold findChangesByHunkHeader. intros Hr.
  apply ranges_of_matches_Err in Hr as (m & Hin & Hm).
  apply (regexp_facts.FindAll_from_groups 0 hunkHeader) in Hin
    as [H1 H2].
  unfold range_of_match, rbind in Hm.
  rewrite (ParseInt_digits (fst m) H1) in Hm.
  destruct (Z.leb_spec (decimal (fst m)) maxInt64).
  - rewrite (ParseInt_digits (snd m) H2) in Hm.
    destruct (Z.leb_spec (decimal (snd m)) maxInt64); [done|].
    injection Hm as <-. by exists (snd m).
  - injection Hm as <-. by exists (fst m).
Qed.

Lemma findChangesByHunkHeader_error_kind_witness :
  exists num,
    ErrRange "ParseInt" "9223372036854775808" = ErrRange "ParseInt" num
    /\ digit_run num /\ maxInt64 < decimal num.
Proof.
  apply (findChangesByHunkHeader_error_kind
           "@@ -1,1 +9223372036854775808,1 @@").
  reflexivity.
Defined.

(** ** findChanges: what every result satisfies *)

Lemma foldM_invariant {A S} (P : S -> Prop) (body : S -> A -> M S) xs :
  (forall s x tr tr' s', P s -> body s x tr = (tr', Ok s') -> P s') ->
  forall s tr tr' s',
    P s -> foldM body xs s tr = (tr', Ok s') -> P s'.
Proof.
  intros Hbody. induction xs as [|x xs IH]; intros s tr tr' s' Hs.
  - simpl. unfold ret. by intros [= _ <-].
  - cbn [foldM]. unfold bind.
    destruct (body s x tr) as [tr1 [s1|e]] eqn:Hx; [|done].
    apply IH. by eapply Hbody.
Qed.

Lemma parsed_ranges_in_bounds h rs :
  findChangesByHunkHeader h = Ok rs ->
  Forall range_in_bounds (map mk_changes rs).
Proof.
  unfold findChangesByHunkHeader. intros Hr.
  apply ranges_of_matches_Ok in Hr as (rs' & Hall & ->). simpl.
  assert (Forall (fun m => digit_run (fst m) /\ digit_run (snd m))
            (regexp.FindAllStringSubmatch h)) as Hruns.
  { apply Forall_forall. intros m Hm. apply list_elem_of_In in Hm.
    by apply (regexp_facts.FindAll_from_groups 0 h). }
  induction Hall as [|m r ms rs Hm _ IH]; [constructor|].
  apply Forall_cons in Hruns as [[H1 H2] Hruns].
  cbn [map]. constructor; [|by apply IH].
  apply range_of_match_inv in Hm as (Hs & Ha & ->); [|done|done].
  split; [done|]. simpl. apply int64_range.
Qed.

Lemma add_hunk_in_bounds changes h tr tr' changes' :
  Forall range_in_bounds changes ->
  add_hunk changes h tr = (tr', Ok changes') ->
  Forall range_in_bounds changes'.
Proof.
  intros Hc. unfold add_hunk, bind, lift, ret.
  destruct (findChangesByHunkHeader h) as [rs|e] eqn:Hh; [|done].
  intros [= _ <-]. rewrite append_positions_map.
  apply Forall_app. split; [done|by eapply parsed_ranges_in_bounds].
Qed.

(** What one turn of the loop over the files does to the change sets. *)
Lemma add_file_result w pwd cmd fileChanges file tr tr' fileChanges' :
  add_file w pwd cmd fileChanges file tr = (tr', Ok fileChanges') ->
  fileChanges' = fileChanges
  \/ exists changes,
       fileChanges' = fileChanges ++ [{| changes_of := changes;
                                         Path := file |}]
       /\ changes <> [] /\ Forall range_in_bounds changes.
Proof.
  unfold add_file. unfold bind at 1.
  destruct (findHunkHeadersOfFile w pwd cmd file tr) as [tr1 [hs|e]];
    [|done].
  unfold bind at 1.
  destruct (foldM add_hunk hs [] tr1) as [tr2 [changes|e]] eqn:Hfold;
    [|done].
  assert (Forall range_in_bounds changes) as Hb.
  { eapply (foldM_invariant (Forall range_in_bounds) add_hunk hs);
      [|constructor|exact Hfold].
    intros s x t t' s'. apply add_hunk_in_bounds. }
  destruct changes as [|ch changes]; simpl; unfold ret.
  - intros [= _ <-]. by left.
  - intros [= _ <-]. right. by exists (ch :: changes).
Qed.

Lemma files_loop_shape w pwd cmd files :
  forall fileChanges tr tr' fileChanges',
    foldM (add_file w pwd cmd) files fileChanges tr
    = (tr', Ok fileChanges') ->
    exists added,
      fileChanges' = fileChanges ++ added
      /\ sublist (map Path added) files
      /\ Forall change_set_ok added.
Proof.
  induction files as [|f files IH]; intros acc tr tr' acc'.
  - simpl. unfold ret. intros [= _ <-]. exists [].
    rewrite app_nil_r. repeat split; constructor.
  - cbn [foldM]. unfold bind.
    destruct (add_file w pwd cmd acc f tr) as [tr1 [acc1|e]] eqn:Hf;
      [|done].
    intros Hrest. destruct (IH _ _ _ _ Hrest) as (added & -> & Hsub & Hok).
    apply add_file_result in Hf
      as [->|(changes & -> & Hne & Hb)].
    + exists added. split; [done|]. split; [by apply sublist_cons|done].
    + exists ({| changes_of := changes; Path := f |} :: added).
      split; [by rewrite <- app_assoc|].
      split; [by apply sublist_skip|]. by constructor.
Qed.

(** X11: whenever [findChanges] returns change sets, each of them has at
    least one range, and each range has a start between 0 and the largest
    [int64] and an end within [int64]: no change set is empty, whatever the
    collaborators answered. *)
Theorem findChanges_invariant w pwd cmd tr tr' changes :
  findChanges w pwd cmd tr = (tr', Ok changes) ->
  Forall
    (fun fc =>
       changes_of fc <> []
       /\ Forall (fun ch => 0 <= Start ch <= maxInt64
                            /\ - 2 ^ 63 <= End ch <= maxInt64)
            (changes_of fc))
    changes.
Proof.
  unfold findChanges. unfold bind at 1.
  destruct (listChangedFiles w pwd cmd tr) as [tr1 [files|e]]; [|done].
  intros Hloop. apply files_loop_shape in Hloop as (added & -> & _ & Hok).
  exact Hok.
Qed.

Lemma findChanges_invariant_witness :
  Forall
    (fun fc =>
       changes_of fc <> []
       /\ Forall (fun ch => 0 <= Start ch <= maxInt64
                            /\ - 2 ^ 63 <= End ch <= maxInt64)
            (changes_of fc))
    [{| changes_of := [range 1 4; range 4 4]; Path := "a.go" |}].
Proof.
  apply (findChanges_invariant sample_world "." "git diff -U0" []
           [EvOutput (list_command "." "git diff -U0");
            EvOutput (diff_command "." "git diff -U0" "a.go");
            EvOutput (diff_command "." "git diff -U0" "b.go");
            EvOutput (diff_command "." "git diff -U0" "")]).
  vm_compute. reflexivity.
Defined.

(** X12: whenever [findChanges] returns change sets, their paths are a
    subsequence of the files [listChangedFiles] returned: files come out
    in the order they were listed, a listed file at most once per listing
    of it, and no path is made up. *)
Theorem findChanges_paths w pwd cmd tr tr' files changes :
  snd (listChangedFiles w pwd cmd tr) = Ok files ->
  findChanges w pwd cmd tr = (tr', Ok changes) ->
  sublist (map Path changes) files.
Proof.
  unfold findChanges. unfold bind at 1.
  destruct (listChangedFiles w pwd cmd tr) as [tr1 [files'|e]]; [|done].
  simpl. intros [= ->] Hloop.
  apply files_loop_shape in Hloop as (added & -> & Hsub & _).
  exact Hsub.
Qed.

Lemma findChanges_paths_witness :
  sublist
    (map Path [{| changes_of := [range 1 4; range 4 4]; Path := "a.go" |}])
    ["a.go"; "b.go"; ""].
Proof.
  apply (findChanges_paths sample_world "." "git diff -U0" []
           [EvOutput (list_command "." "git diff -U0");
            EvOutput (diff_command "." "git diff -U0" "a.go");
            EvOutput (diff_command "." "git diff -U0" "b.go");
            EvOutput (diff_command "." "git diff -U0" "")]).
  - vm_compute. reflexivity.
  - vm_compute. reflexivity.
Defined.

(** ** findChanges: the commands it runs, and where it stops *)

Lemma add_file_trace w pwd cmd fileChanges file tr :
  fst (add_file w pwd cmd fileChanges file tr)
  = tr ++ [EvOutput (diff_command pwd cmd file)].
Proof.
  unfold add_file, findHunkHeadersOfFile. fold (diff_command pwd cmd file).
  unfold bind at 1, bind at 1, bind at 1, emit, lift.
  destruct (sh_output w (diff_command pwd cmd file)) as [out|e]; [|done].
  unfold ret at 1. unfold bind.
  assert (forall hs changes t, fst (foldM add_hunk hs changes t) = t) as Hq.
  { induction hs as [|h hs IH]; intros changes t; [done|].
    cbn [foldM]. unfold bind, add_hunk at 1, lift, ret at 1.
    destruct (findChangesByHunkHeader h); [apply IH|done]. }
  specialize (Hq (hunk.FindAllString out) []
                (tr ++ [EvOutput (diff_command pwd cmd file)])).
  destruct (foldM add_hunk _ _ _) as [t [changes|e]]; simpl in Hq; subst t;
    [|done].
  by destruct (_ =? _)%nat.
Qed.

Lemma files_loop_trace w pwd cmd files :
  forall fileChanges tr,
    exists called rest,
      files = called ++ rest
      /\ fst (foldM (add_file w pwd cmd) files fileChanges tr)
         = tr ++ map (fun f => EvOutput (diff_command pwd cmd f)) called
      /\ (forall changes,
             snd (foldM (add_file w pwd cmd) files fileChanges tr)
             = Ok changes -> rest = []).
Proof.
  induction files as [|f files IH]; intros acc tr.
  - exists [], []. simpl. by rewrite app_nil_r.
  - cbn [foldM]. unfold bind.
    pose proof (add_file_trace w pwd cmd acc f tr) as Ht.
    destruct (add_file w pwd cmd acc f tr) as [tr1 [acc1|e]];
      simpl in Ht; subst tr1.
    + destruct (IH acc1 (tr ++ [EvOutput (diff_command pwd cmd f)]))
        as (called & rest & -> & Hfst & Hok).
      exists (f :: called), rest. split; [done|].
      split; [|done]. rewrite Hfst. simpl. by rewrite <- app_assoc.
    + exists [f], files. simpl. done.
Qed.

Lemma listChangedFiles_run w pwd cmd tr :
  listChangedFiles w pwd cmd tr
  = (tr ++ [EvOutput (list_command pwd cmd)],
     match sh_output w (list_command pwd cmd) with
     | Ok out => Ok (collect_files (split_lines out) [])
     | Err e => Err e
     end).
Proof.
  unfold listChangedFiles, bind, emit, lift, ret.
  fold (list_command pwd cmd).
  by destruct (sh_output w (list_command pwd cmd)).
Qed.

Lemma findChanges_run w pwd cmd tr :
  findChanges w pwd cmd tr
  = match sh_output w (list_command pwd cmd) with
    | Ok out =>
        foldM (add_file w pwd cmd) (collect_files (split_lines out) []) []
          (tr ++ [EvOutput (list_command pwd cmd)])
    | Err e => (tr ++ [EvOutput (list_command pwd cmd)], Err e)
    end.
Proof.
  unfold findChanges, bind. rewrite listChangedFiles_run.
  by destruct (sh_output w (list_command pwd cmd)).
Qed.

Lemma add_hunks_ok hs changes t :
  first_parse_error hs = None ->
  exists changes', foldM add_hunk hs changes t = (t, Ok changes').
Proof.
  revert changes. induction hs as [|h hs IH]; intros changes Hnone.
  - by exists changes.
  - cbn [first_parse_error] in Hnone. cbn [foldM].
    unfold bind, add_hunk at 1, lift, ret at 1.
    destruct (findChangesByHunkHeader h) as [rs|e]; [|done].
    by apply IH.
Qed.

Lemma add_hunks_error hs changes t e :
  first_parse_error hs = Some e ->
  foldM add_hunk hs changes t = (t, Err e).
Proof.
  revert changes. induction hs as [|h hs IH]; intros changes Hsome;
    [done|].
  cbn [first_parse_error] in Hsome. cbn [foldM].
  unfold bind, add_hunk at 1, lift, ret at 1.
  destruct (findChangesByHunkHeader h) as [rs|e'].
  - by apply IH.
  - by injection Hsome as ->.
Qed.

Lemma add_file_ok w pwd cmd fileChanges file t :
  file_error w pwd cmd file = None ->
  exists fileChanges',
    add_file w pwd cmd fileChanges file t
    = (t ++ [EvOutput (diff_command pwd cmd file)], Ok fileChanges').
Proof.
  unfold file_error, add_file, findHunkHeadersOfFile.
  fold (diff_command pwd cmd file). intros Hnone.
  unfold bind at 1, bind at 1, bind at 1, emit, lift.
  destruct (sh_output w (diff_command pwd cmd file)) as [out|e]; [|done].
  unfold ret at 1. unfold bind.
  destruct (add_hunks_ok (hunk.FindAllString out) []
              (t ++ [EvOutput (diff_command pwd cmd file)]) Hnone)
    as [changes ->].
  destruct (_ =? _)%nat; eexists; reflexivity.
Qed.

Lemma add_file_fails w pwd cmd fileChanges file t e :
  file_error w pwd cmd file = Some e ->
  add_file w pwd cmd fileChanges file t
  = (t ++ [EvOutput (diff_command pwd cmd file)], Err e).
Proof.
  unfold file_error, add_file, findHunkHeadersOfFile.
  fold (diff_command pwd cmd file). intros Hsome.
  unfold bind at 1, bind at 1, bind at 1, emit, lift.
  destruct (sh_output w (diff_command pwd cmd file)) as [out|e'].
  - unfold ret at 1. unfold bind.
    by rewrite (add_hunks_error (hunk.FindAllString out) [] _ e Hsome).
  - by injection Hsome as ->.
Qed.

Lemma files_loop_all_ok w pwd cmd files :
  Forall (fun f => file_error w pwd cmd f = None) files ->
  forall fileChanges t,
    exists fileChanges',
      foldM (add_file w pwd cmd) files fileChanges t
      = (t ++ map (fun f => EvOutput (diff_command pwd cmd f)) files,
         Ok fileChanges').
Proof.
  induction files as [|f files IH]; intros Hall acc t.
  - exists acc. simpl. by rewrite app_nil_r.
  - apply Forall_cons in Hall as [Hf Hall]. cbn [foldM]. unfold bind.
    destruct (add_file_ok w pwd cmd acc f t Hf) as [acc1 ->].
    destruct (IH Hall acc1 (t ++ [EvOutput (diff_command pwd cmd f)]))
      as [acc' ->].
    exists acc'. simpl. by rewrite <- app_assoc.
Qed.

Lemma files_loop_first_error w pwd cmd before file after e fileChanges t :
  Forall (fun f => file_error w pwd cmd f = None) before ->
  file_error w pwd cmd file = Some e ->
  foldM (add_file w pwd cmd) (before ++ file :: after) fileChanges t
  = (t ++ map (fun f => EvOutput (diff_command pwd cmd f))
         (before ++ [file]), Err e).
Proof.
  intros Hbefore Hfile. rewrite foldM_app_run. unfold bind at 1.
  destruct (files_loop_all_ok w pwd cmd before Hbefore fileChanges t)
    as [acc1 ->].
  cbn [foldM]. unfold bind.
  rewrite (add_file_fails w pwd cmd acc1 file _ e Hfile).
  by rewrite map_app, app_assoc.
Qed.

(** X13: [findChanges] runs the listing command once and then the diff
    command once for each listed file, in the order of the listing, up to
    and including the first file at which it fails (its diff command
    fails, or one of its hunk headers is refused by the parser), and
    returns the error of that file; when no listed file fails it has run
    the diff command for every listed file, the empty path of a trailing
    newline included, and returns change sets; when the listing fails it
    runs no diff and returns that error. *)
Theorem findChanges_commands w pwd cmd tr :
  (forall e,
      sh_output w (list_command pwd cmd) = Err e ->
      findChanges w pwd cmd tr
      = (tr ++ [EvOutput (list_command pwd cmd)], Err e))
  /\ (forall files,
         snd (listChangedFiles w pwd cmd tr) = Ok files ->
         (Forall (fun f => file_error w pwd cmd f = None) files ->
          exists changes,
            findChanges w pwd cmd tr
            = (tr ++ EvOutput (list_command pwd cmd)
                  :: map (fun f => EvOutput (diff_command pwd cmd f)) files,
               Ok changes))
         /\ (forall before file after e,
                files = before ++ file :: after ->
                Forall (fun f => file_error w pwd cmd f = None) before ->
                file_error w pwd cmd file = Some e ->
                findChanges w pwd cmd tr
                = (tr ++ EvOutput (list_command pwd cmd)
                      :: map (fun f => EvOutput (diff_command pwd cmd f))
                           (before ++ [file]),
                   Err e))).
Proof.
  rewrite findChanges_run, listChangedFiles_run. cbn [snd]. split.
  - by intros e ->.
  - intros files Hfiles.
    destruct (sh_output w (list_command pwd cmd)) as [out|e']; [|done].
    injection Hfiles as <-. split.
    + intros Hall.
      destruct (files_loop_all_ok w pwd cmd _ Hall []
                  (tr ++ [EvOutput (list_command pwd cmd)]))
        as [changes ->].
      exists changes. by rewrite <- app_assoc.
    + intros before file after e -> Hbefore Hfile.
      rewrite (files_loop_first_error w pwd cmd before file after e);
        [|done|done].
      by rewrite <- app_assoc.
Qed.

Lemma findChanges_commands_witness :
  findChanges world_diff_fails "." "git diff" []
  = ([] ++ EvOutput (list_command "." "git diff")
        :: map (fun f => EvOutput (diff_command "." "git diff" f))
             (["a.go"] ++ ["b.go"]),
     Err (ExternalError "exit status 128"))
  /\ exists changes,
       findChanges sample_world "." "git diff -U0" []
       = ([] ++ EvOutput (list_command "." "git diff -U0")
             :: map (fun f => EvOutput (diff_command "." "git diff -U0" f))
                  ["a.go"; "b.go"; ""],
          Ok changes).
Proof.
  split.
  - apply (proj2 (proj2 (findChanges_commands world_diff_fails "."
                           "git diff" [])
                    ["a.go"; "b.go"; "c.go"; ""] eq_refl)
             ["a.go"] "b.go" ["c.go"; ""]
             (ExternalError "exit status 128")).
    + reflexivity.
    + constructor; [reflexivity|constructor].
    + reflexivity.
  - apply (proj1 (proj2 (findChanges_commands sample_world "."
                           "git diff -U0" [])
                    ["a.go"; "b.go"; ""] eq_refl)).
    repeat (constructor; [reflexivity|]). constructor.
Defined.

Lemma files_loop_stop w pwd cmd headers ranges before file after e
    fileChanges tr :
  (forall f t, In f before ->
               snd (findHunkHeadersOfFile w pwd cmd f t) = Ok (headers f)) ->
  (forall f h, In f before -> In h (headers f) ->
               findChangesByHunkHeader h = Ok (ranges h)) ->
  (forall acc t, snd (add_file w pwd cmd acc file t) = Err e) ->
  foldM (add_file w pwd cmd) (before ++ file :: after) fileChanges tr
  = (tr ++ map (fun f => EvOutput (diff_command pwd cmd f))
          (before ++ [file]), Err e).
Proof.
  intros Hh Hr Hfile. rewrite foldM_app_run. unfold bind at 1.
  pose proof (files_loop_run w pwd cmd headers ranges before fileChanges tr
                Hh Hr) as Hsnd.
  destruct (files_loop_trace w pwd cmd before fileChanges tr)
    as (called & rest & Hsplit & Hfst & Hok).
  rewrite (Hok _ Hsnd), app_nil_r in Hsplit. subst called.
  destruct (foldM (add_file w pwd cmd) before fileChanges tr) as [t1 r1].
  simpl in Hsnd, Hfst. subst t1 r1. cbn [foldM]. unfold bind.
  pose proof (add_file_trace w pwd cmd
                (fileChanges ++ change_sets headers ranges before) file
                (tr ++ map (fun f => EvOutput (diff_command pwd cmd f))
                       before)) as Ht.
  pose proof (Hfile (fileChanges ++ change_sets headers ranges before)
                (tr ++ map (fun f => EvOutput (diff_command pwd cmd f))
                       before)) as He.
  destruct (add_file w pwd cmd _ file _) as [t2 r2].
  simpl in Ht, He. subst t2 r2.
  by rewrite map_app, app_assoc.
Qed.

(** X14: when the diff command fails for a listed file, the files before
    it having been processed, [findChanges] returns that error and runs no
    further command: the files after it are not looked at, and the change
    sets built so far are given up. *)
Theorem findChanges_diff_error w pwd cmd tr headers ranges
    before file after e :
  snd (listChangedFiles w pwd cmd tr) = Ok (before ++ file :: after) ->
  (forall f t, In f before ->
               snd (findHunkHeadersOfFile w pwd cmd f t) = Ok (headers f)) ->
  (forall f h, In f before -> In h (headers f) ->
               findChangesByHunkHeader h = Ok (ranges h)) ->
  sh_output w (diff_command pwd cmd file) = Err e ->
  findChanges w pwd cmd tr
  = (tr ++ EvOutput (list_command pwd cmd)
        :: map (fun f => EvOutput (diff_command pwd cmd f))
             (before ++ [file]),
     Err e).
Proof.
  intros Hfiles Hh Hr Herr. rewrite findChanges_run.
  rewrite listChangedFiles_run in Hfiles. cbn [snd] in Hfiles.
  destruct (sh_output w (list_command pwd cmd)) as [out|e']; [|done].
  injection Hfiles as ->.
  rewrite (files_loop_stop w pwd cmd headers ranges before file after e);
    try done.
  - by rewrite <- app_assoc.
  - intros acc t. unfold add_file, findHunkHeadersOfFile.
    fold (diff_command pwd cmd file). unfold bind, emit, lift.
    by rewrite Herr.
Qed.

Lemma findChanges_diff_error_witness :
  findChanges world_diff_fails "." "git diff" []
  = ([EvOutput (list_command "." "git diff");
      EvOutput (diff_command "." "git diff" "a.go");
      EvOutput (diff_command "." "git diff" "b.go")],
     Err (ExternalError "exit status 128")).
Proof.
  exact (findChanges_diff_error world_diff_fails "." "git diff" []
           (fun _ => ["@@ -10,3 +12,5 @@"]) (fun _ => [(12, 17)])
           ["a.go"] "b.go" ["c.go"; ""]
           (ExternalError "exit status 128")
           eq_refl
           ltac:(intros f t [<-|[]]; reflexivity)
           ltac:(intros f h [<-|[]] [<-|[]]; reflexivity)
           eq_refl).
Defined.

(** X15: when a hunk header of a listed file holds a field that
    [strconv.ParseInt] refuses, the files and the headers before it having
    been processed, [findChanges] returns that error right after the diff
    of that file: no change set is returned, the ranges already parsed
    are given up, and no further command is run. *)
Theorem findChanges_stops_at_parse_error w pwd cmd tr headers ranges
    before file after hs1 h hs2 e :
  snd (listChangedFiles w pwd cmd tr) = Ok (before ++ file :: after) ->
  (forall f t, In f before ->
               snd (findHunkHeadersOfFile w pwd cmd f t) = Ok (headers f)) ->
  (forall f h', In f before -> In h' (headers f) ->
                findChangesByHunkHeader h' = Ok (ranges h')) ->
  (forall t, snd (findHunkHeadersOfFile w pwd cmd file t)
             = Ok (hs1 ++ h :: hs2)) ->
  (forall h', In h' hs1 -> findChangesByHunkHeader h' = Ok (ranges h')) ->
  findChangesByHunkHeader h = Err e ->
  findChanges w pwd cmd tr
  = (tr ++ EvOutput (list_command pwd cmd)
        :: map (fun f => EvOutput (diff_command pwd cmd f))
             (before ++ [file]),
     Err e).
Proof.
  intros Hfiles Hh Hr Hfile Hhs1 Herr. rewrite findChanges_run.
  rewrite listChangedFiles_run in Hfiles. cbn [snd] in Hfiles.
  destruct (sh_output w (list_command pwd cmd)) as [out|e']; [|done].
  injection Hfiles as ->.
  rewrite (files_loop_stop w pwd cmd headers ranges before file after e);
    try done.
  - by rewrite <- app_assoc.
  - intros acc t.
    by apply (add_file_error w pwd cmd ranges file hs1 hs2 h e).
Qed.

Lemma findChanges_stops_at_parse_error_witness :
  findChanges world_overflow "." "git diff" []
  = ([EvOutput (list_command "." "git diff");
      EvOutput (diff_command "." "git diff" "a.go")],
     Err (ErrRange "ParseInt" "9223372036854775808")).
Proof.
  exact (findChanges_stops_at_parse_error world_overflow "." "git diff" []
           (fun _ => []) (fun _ => [(2, 4)])
           [] "a.go" ["b.go"; ""]
           ["@@ -1,1 +2,2 @@"] "@@ -1,1 +9223372036854775808,1 @@" []
           (ErrRange "ParseInt" "9223372036854775808")
           eq_refl
           ltac:(intros f t [])
           ltac:(intros f h [])
           ltac:(intros t; reflexivity)
           ltac:(intros h [<-|[]]; reflexivity)
           eq_refl).
Defined.

(** ** main *)

Lemma select_loop_prints issues idx tr :
  select_loop issues idx tr
  = (tr ++ map EvPrint (selected issues idx), Ok tt).
Proof.
  rewrite select_loop_run, selected_flat_map. do 2 f_equal.
  induction issues as [|issue issues IH]; [done|].
  cbn [flat_map]. rewrite map_app, IH. f_equal.
  induction (hits issue idx) as [|n IHn]; [done|]. simpl. by rewrite IHn.
Qed.

Lemma printed_map_EvPrint issues : printed (map EvPrint issues) = issues.
Proof. induction issues as [|i issues IH]; [done|]. simpl. by rewrite IH. Qed.

Lemma selected_empty_index issues :
  selected issues (getChangesByFileName []) = [].
Proof.
  rewrite selected_flat_map. induction issues as [|i issues IH]; [done|].
  cbn [flat_map]. rewrite IH. unfold hits, matching, getChangesByFileName.
  simpl. by rewrite lookup_empty.
Qed.

(** The run of [main], step by step. *)
Lemma main_run w args tr :
  main w args tr
  = let tr2 := tr ++ [EvRun (lint_command args);
                      EvReadJSON (arg_JsonFile args)] in
    match read_json w (arg_JsonFile args) with
    | Err e => (tr2, Err e)
    | Ok issues =>
        match findChanges w (arg_Pwd args) (arg_Cmd args) tr2 with
        | (tr3, Err e) => (tr3, Err e)
        | (tr3, Ok changes) =>
            (tr3 ++ map EvPrint
                      (selected issues (getChangesByFileName changes)),
             Ok tt)
        end
    end.
Proof.
  unfold main, Execute, FindJSONIssues.
  cbn [outputFile outputFormat binPath pwdPath checkingPath SetInspectDes
       SetOutputJSON SetPwd NewGolangCILint].
  unfold bind at 1, bind at 1, emit at 1, ret at 1.
  unfold bind at 1, bind at 1, emit at 1, lift at 1.
  cbv zeta.
  replace ("cd " +:+ arg_Pwd args +:+ "; "
             +:+ "/home/shane/go/bin/golangci-lint" +:+ " run --out-format "
             +:+ ("json:" +:+ arg_JsonFile args) +:+ " "
             +:+ arg_InspectDes args)
    with (lint_command args)
    by (unfold lint_command; str_assoc; done).
  rewrite <- app_assoc. cbn [app].
  destruct (read_json w (arg_JsonFile args)) as [issues|e]; [|done].
  unfold bind.
  destruct (findChanges w (arg_Pwd args) (arg_Cmd args) _)
    as [tr3 [changes|e]]; [|done].
  apply select_loop_prints.
Qed.

(** X16: when [main] ends with an error, it has printed nothing: every
    fatal error comes before the first finding is emitted. *)
Theorem main_error_prints_nothing w args tr e :
  snd (main w args tr) = Err e ->
  printed (fst (main w args tr)) = printed tr.
Proof.
  rewrite main_run. cbv zeta.
  destruct (read_json w (arg_JsonFile args)) as [issues|e'].
  - pose proof (silent_findChanges w (arg_Pwd args) (arg_Cmd args)
                  (tr ++ [EvRun (lint_command args);
                          EvReadJSON (arg_JsonFile args)])) as Hs.
    destruct (findChanges w (arg_Pwd args) (arg_Cmd args) _)
      as [tr3 [changes|e']]; [done|].
    simpl in *. intros _. rewrite Hs, printed_app. simpl.
    by rewrite app_nil_r.
  - simpl. intros _. rewrite printed_app. simpl. by rewrite app_nil_r.
Qed.

Lemma main_error_prints_nothing_witness :
  printed (fst (main world_overflow default_args [])) = printed [].
Proof.
  apply (main_error_prints_nothing world_overflow default_args []
           (ErrRange "ParseInt" "9223372036854775808")).
  vm_compute. reflexivity.
Defined.

(** X17: when [main] ends normally, the JSON file was decoded, the change
    set was built, and what [main] printed is, in order, what the selection
    loop selects from the decoded findings with the index of the change
    sets; the prints come after every command. *)
Theorem main_success w args tr tr' :
  main w args tr = (tr', Ok tt) ->
  exists issues changes tr3,
    read_json w (arg_JsonFile args) = Ok issues
    /\ findChanges w (arg_Pwd args) (arg_Cmd args)
         (tr ++ [EvRun (lint_command args);
                 EvReadJSON (arg_JsonFile args)])
       = (tr3, Ok changes)
    /\ tr' = tr3 ++ map EvPrint
                      (selected issues (getChangesByFileName changes))
    /\ printed tr'
       = printed tr ++ selected issues (getChangesByFileName changes).
Proof.
  rewrite main_run. cbv zeta.
  destruct (read_json w (arg_JsonFile args)) as [issues|e]; [|done].
  pose proof (silent_findChanges w (arg_Pwd args) (arg_Cmd args)
                (tr ++ [EvRun (lint_command args);
                        EvReadJSON (arg_JsonFile args)])) as Hs.
  destruct (findChanges w (arg_Pwd args) (arg_Cmd args) _)
    as [tr3 [changes|e]]; [|done].
  intros [= <-]. exists issues, changes, tr3. repeat split.
  simpl in Hs. rewrite printed_app, Hs, printed_app, printed_map_EvPrint.
  simpl. by rewrite app_nil_r.
Qed.

Lemma main_success_witness :
  exists issues changes tr3,
    read_json sample_world (arg_JsonFile sample_args) = Ok issues
    /\ findChanges sample_world (arg_Pwd sample_args) (arg_Cmd sample_args)
         ([] ++ [EvRun (lint_command sample_args);
                 EvReadJSON (arg_JsonFile sample_args)])
       = (tr3, Ok changes)
    /\ [EvRun (lint_command sample_args);
        EvReadJSON "/tmp/golang_ci_lint.json";
        EvOutput (list_command "." "git diff -U0");
        EvOutput (diff_command "." "git diff -U0" "a.go");
        EvOutput (diff_command "." "git diff -U0" "b.go");
        EvOutput (diff_command "." "git diff -U0" "");
        EvPrint (issue_at "a.go" 4); EvPrint (issue_at "a.go" 4)]
       = tr3 ++ map EvPrint
                  (selected issues (getChangesByFileName changes))
    /\ printed
         [EvRun (lint_command sample_args);
          EvReadJSON "/tmp/golang_ci_lint.json";
          EvOutput (list_command "." "git diff -U0");
          EvOutput (diff_command "." "git diff -U0" "a.go");
          EvOutput (diff_command "." "git diff -U0" "b.go");
          EvOutput (diff_command "." "git diff -U0" "");
          EvPrint (issue_at "a.go" 4); EvPrint (issue_at "a.go" 4)]
       = printed [] ++ selected issues (getChangesByFileName changes).
Proof.
  apply (main_success sample_world sample_args []).
  vm_compute. reflexivity.
Defined.

(** X18: when the JSON file of the lint runner cannot be read or decoded,
    [main] ends with that error right after the attempt: the lint runner
    was invoked, with the output format [json:] and the file [main] then
    reads, and no command of the version control is run. *)
Theorem main_json_error w args tr e :
  read_json w (arg_JsonFile args) = Err e ->
  main w args tr
  = (tr ++ [EvRun (lint_command args); EvReadJSON (arg_JsonFile args)],
     Err e).
Proof. intros H. rewrite main_run. cbv zeta. by rewrite H. Qed.

Lemma main_json_error_witness :
  main world_no_json default_args []
  = ([] ++ [EvRun (lint_command default_args);
            EvReadJSON (arg_JsonFile default_args)],
     Err (ExternalError "open: no such file or directory")).
Proof.
  apply (main_json_error world_no_json default_args []). reflexivity.
Defined.

(** X19: [main] ends with an error exactly when the reading of the JSON
    file fails or the building of the change set fails, and the error it
    ends with is theirs; the selection itself never fails. *)
Theorem main_error_iff w args tr e :
  snd (main w args tr) = Err e <->
  read_json w (arg_JsonFile args) = Err e
  \/ ((exists issues, read_json w (arg_JsonFile args) = Ok issues)
      /\ snd (findChanges w (arg_Pwd args) (arg_Cmd args)
                (tr ++ [EvRun (lint_command args);
                        EvReadJSON (arg_JsonFile args)]))
         = Err e).
Proof.
  rewrite main_run. cbv zeta.
  destruct (read_json w (arg_JsonFile args)) as [issues|e'].
  - destruct (findChanges w (arg_Pwd args) (arg_Cmd args) _)
      as [tr3 [changes|e']]; simpl.
    + split; [done|]. intros [H|[_ H]]; done.
    + split.
      * intros [= ->]. right. split; [by exists issues|done].
      * intros [H|[_ H]]; [done|]. by injection H as ->.
  - simpl. split.
    + intros [= ->]. by left.
    + intros [H|[[issues H] _]]; [by injection H as ->|done].
Qed.

Lemma main_error_iff_witness :
  snd (main world_diff_fails default_args [])
  = Err (ExternalError "exit status 128").
Proof.
  apply (proj2 (main_error_iff world_diff_fails default_args []
                  (ExternalError "exit status 128"))).
  right. split; [by exists [issue_at "a.go" 12]|].
  vm_compute. reflexivity.
Defined.

Lemma split_lines_head p rest :
  lacks newline p = true ->
  exists l ls, split_lines (p +:+ rest) = (p +:+ l) :: ls.
Proof.
  induction p as [|c p IH]; intros Hp; str_norm.
  - pose proof (split_lines_not_nil rest) as Hne.
    destruct (split_lines rest) as [|l ls]; [done|]. by exists l, ls.
  - rewrite lacks_cons_eq in Hp. apply andb_true_iff in Hp as [Hc Hp].
    apply negb_true_iff in Hc. rewrite Ascii.eqb_sym in Hc.
    destruct (IH Hp) as (l & ls & Hs).
    exists l, ls. by rewrite split_lines_cons, Hc, Hs.
Qed.

(** X20: when the output of the listing command begins with ["commit "],
    no file is listed at all, whatever follows: [findChanges] returns no
    change set without running any diff, and [main] prints nothing and ends
    normally. *)
Theorem main_commit_first w args tr issues rest :
  read_json w (arg_JsonFile args) = Ok issues ->
  sh_output w (list_command (arg_Pwd args) (arg_Cmd args))
  = Ok ("commit " +:+ rest) ->
  findChanges w (arg_Pwd args) (arg_Cmd args) tr
  = (tr ++ [EvOutput (list_command (arg_Pwd args) (arg_Cmd args))], Ok [])
  /\ main w args tr
     = (tr ++ [EvRun (lint_command args); EvReadJSON (arg_JsonFile args);
               EvOutput (list_command (arg_Pwd args) (arg_Cmd args))],
        Ok tt).
Proof.
  intros Hjson Hout.
  assert (forall t,
            findChanges w (arg_Pwd args) (arg_Cmd args) t
            = (t ++ [EvOutput (list_command (arg_Pwd args) (arg_Cmd args))],
               Ok [])) as Hfc.
  { intros t. rewrite findChanges_run, Hout.
    destruct (split_lines_head "commit " rest eq_refl) as (l & ls & ->).
    cbn [collect_files].
    assert (String.prefix "commit " ("commit " +:+ l) = true) as ->
      by (destruct l; vm_compute; reflexivity).
    done. }
  split; [apply Hfc|].
  rewrite main_run. cbv zeta. rewrite Hjson, Hfc, selected_empty_index.
  simpl. by rewrite app_nil_r, <- app_assoc.
Qed.

Lemma main_commit_first_witness :
  findChanges world_commit_first "." "git diff" []
  = ([] ++ [EvOutput (list_command "." "git diff")], Ok [])
  /\ main world_commit_first default_args []
     = ([] ++ [EvRun (lint_command default_args);
               EvReadJSON (arg_JsonFile default_args);
               EvOutput (list_command "." "git diff")],
        Ok tt).
Proof.
  apply (main_commit_first world_commit_first default_args []
           [issue_at "a.go" 1]
           ("7b1e126d54a" +:+ String newline (lines ["a.go"])));
    reflexivity.
Defined.



(** X22: when the change set is empty (no listed file has a range), [main]
    prints nothing, whatever the findings are, and ends normally. *)
Theorem main_no_changes w args tr tr3 issues :
  read_json w (arg_JsonFile args) = Ok issues ->
  findChanges w (arg_Pwd args) (arg_Cmd args)
    (tr ++ [EvRun (lint_command args); EvReadJSON (arg_JsonFile args)])
  = (tr3, Ok []) ->
  main w args tr = (tr3, Ok tt).
Proof.
  intros Hjson Hfc. rewrite main_run. cbv zeta.
  rewrite Hjson, Hfc, selected_empty_index. simpl. by rewrite app_nil_r.
Qed.

Lemma main_no_changes_witness :
  main world_commit_first default_args []
  = ([EvRun (lint_command default_args);
      EvReadJSON (arg_JsonFile default_args);
      EvOutput (list_command "." "git diff")], Ok tt).
Proof.
  apply (main_no_changes world_commit_first default_args [] _
           [issue_at "a.go" 1]); reflexivity.
Defined.

(** ** GolangCILint *)

Lemma configure_snoc g calls s :
  configure g (calls ++ [s]) = apply_setter (configure g calls) s.
Proof. unfold configure. by rewrite fold_left_app. Qed.

Lemma configure_output g calls :
  (exists filename, In (CallSetOutputJSON filename) calls) ->
  outputFormat (configure g calls)
  = "json:" +:+ outputFile (configure g calls).
Proof.
  induction calls as [|s calls IH] using rev_ind; intros [f Hin].
  - destruct Hin.
  - rewrite configure_snoc. apply in_app_iff in Hin as [Hin|[Heq|[]]].
    + specialize (IH (ex_intro _ f Hin)). by destruct s.
    + by subst s.
Qed.

(** X23: after any chain of setter calls that holds a [SetOutputJSON], on
    any lint runner, the file [FindJSONIssues] reads is the file the
    command of [Execute] names in its [--out-format json:] option; the
    other setters keep that agreement. *)
Theorem lint_output_agrees w g calls tr :
  (exists filename, In (CallSetOutputJSON filename) calls) ->
  let g' := configure g calls in
  fst (Execute w g' tr)
  = tr ++ [EvRun ("cd " +:+ pwdPath g' +:+ "; " +:+ binPath g'
                    +:+ " run --out-format json:" +:+ outputFile g'
                    +:+ " " +:+ checkingPath g')]
  /\ fst (FindJSONIssues w g' tr) = tr ++ [EvReadJSON (outputFile g')].
Proof.
  intros Hjson g'. split.
  - unfold Execute, bind, emit, ret. simpl. unfold g'.
    rewrite (configure_output g calls Hjson). by str_assoc.
  - unfold FindJSONIssues, bind, emit, lift. simpl.
    by destruct (read_json w (outputFile g')).
Qed.

Lemma lint_output_agrees_witness :
  fst (Execute sample_world
         (configure NewGolangCILint
            [CallSetPwd "."; CallSetOutputJSON "/tmp/out.json";
             CallSetInspectDes "./..."; CallSetBin "golangci-lint"]) [])
  = [EvRun "cd .; golangci-lint run --out-format json:/tmp/out.json ./..."]
  /\ fst (FindJSONIssues sample_world
            (configure NewGolangCILint
               [CallSetPwd "."; CallSetOutputJSON "/tmp/out.json";
                CallSetInspectDes "./..."; CallSetBin "golangci-lint"]) [])
     = [EvReadJSON "/tmp/out.json"].
Proof.
  apply (lint_output_agrees sample_world NewGolangCILint
           [CallSetPwd "."; CallSetOutputJSON "/tmp/out.json";
            CallSetInspectDes "./..."; CallSetBin "golangci-lint"] []).
  exists "/tmp/out.json". simpl. auto.
Defined.
